(** * fabric.js numeric utilities: easing curves and object transforms

    A shallow embedding of [src/util/anim_ease.ts] and
    [src/util/misc/objectTransforms.ts], followed by the properties the
    specification states about them.

    Numbers.  A JavaScript [number] is modelled by a real number ([R]), that
    is, in exact arithmetic: rounding, infinities and NaN are not modelled.
    Division by zero is therefore outside the model, and every statement
    below that divides carries the hypothesis that the divisor is not zero.

    - [x === y] and [x < y] on numbers are the booleans [Reqb x y] and
      [Rltb x y], decided by [Req_dec_T] and [Rlt_dec];
    - [x ** n] with a literal natural exponent is [x ^ n];
    - [2 ** e] and [Math.pow(2, e)] with a real exponent are [Rpower 2 e];
    - [Math.sin], [Math.cos], [Math.asin], [Math.sqrt], [Math.abs] and
      [Math.PI] are [sin], [cos], [asin], [sqrt], [Rabs] and [PI];
    - [t /= e], [t -= e], [--t] inside an expression rebind [t] with a [let]
      before the expression that reads it, in JavaScript's left-to-right
      evaluation order. *)

From Stdlib Require Import Reals Lra List.
From stdpp Require Import base strings gmap.

Open Scope R_scope.

(** ** JavaScript comparisons on numbers *)

(** [x === y]. *)
Definition Reqb (x y : R) : bool := if Req_dec_T x y then true else false.

(** [x < y]. *)
Definition Rltb (x y : R) : bool := if Rlt_dec x y then true else false.

Notation "x === y" := (Reqb x y) (at level 70, no associativity) : R_scope.
Notation "x <? y" := (Rltb x y) (at level 70, no associativity) : R_scope.

(** ** [src/constants] *)

Module Constants.

(** Modelled from the spec: [../constants] is not among the source files; the
    spec gives the sinusoidal curves as "cosine/sine of t/d * π/2" and the
    elastic waveform with the factor "2π / period". *)
Definition halfPI : R := PI / 2.

(** Modelled from the spec: see [halfPI]. *)
Definition twoMathPi : R := PI * 2.

End Constants.

(** ** [src/util/anim_ease.ts] *)

Module Ease.

Import Constants.

Definition TEasingFunction : Type := R -> R -> R -> R -> R.

(** The object [{ a, c, p, s }] that [normalize] returns. *)
Record TNormalized : Type := Normalized { a : R; c : R; p : R; s : R }.

Definition normalize (a c p s : R) : TNormalized :=
  if a <? Rabs c then
    Normalized c c p (p / 4)
  else if (c === 0) && (a === 0) then
    Normalized a c p (p / twoMathPi * asin 1)
  else
    Normalized a c p (p / twoMathPi * asin (c / a)).

Definition elastic (a s p t d : R) : R :=
  let t := t - 1 in
  a * Rpower 2 (10 * t) * sin ((t * d - s) * twoMathPi / p).

(** Cubic easing out. *)
Definition easeOutCubic : TEasingFunction := fun t b c d =>
  let t := t / (d - 1) in
  c * (t * t ^ 2 + 1) + b.

(** Cubic easing in and out: the two branches, on the normalized time. *)
Definition easeInOutCubic_first (t b c : R) : R := c / 2 * t ^ 3 + b.

Definition easeInOutCubic_second (t b c : R) : R :=
  let t := t - 2 in
  c / 2 * (t * t ^ 2 + 2) + b.

Definition easeInOutCubic : TEasingFunction := fun t b c d =>
  let t := t / (d / 2) in
  if t <? 1 then easeInOutCubic_first t b c
  else easeInOutCubic_second t b c.

(** Quartic easing in. *)
Definition easeInQuart : TEasingFunction := fun t b c d =>
  let t := t / d in
  c * t * t ^ 3 + b.

(** Quartic easing out. *)
Definition easeOutQuart : TEasingFunction := fun t b c d =>
  let t := t / d - 1 in
  - c * (t * t ^ 3 - 1) + b.

(** Quartic easing in and out. *)
Definition easeInOutQuart_first (t b c : R) : R := c / 2 * t ^ 4 + b.

Definition easeInOutQuart_second (t b c : R) : R :=
  let t := t - 2 in
  - c / 2 * (t * t ^ 3 - 2) + b.

Definition easeInOutQuart : TEasingFunction := fun t b c d =>
  let t := t / (d / 2) in
  if t <? 1 then easeInOutQuart_first t b c
  else easeInOutQuart_second t b c.

(** Quintic easing in. *)
Definition easeInQuint : TEasingFunction := fun t b c d =>
  let t := t / d in
  c * t * t ^ 4 + b.

(** Quintic easing out. *)
Definition easeOutQuint : TEasingFunction := fun t b c d =>
  let t := t / (d - 1) in
  c * (t * t ^ 4 + 1) + b.

(** Quintic easing in and out. *)
Definition easeInOutQuint_first (t b c : R) : R := c / 2 * t ^ 5 + b.

Definition easeInOutQuint_second (t b c : R) : R :=
  let t := t - 2 in
  c / 2 * (t * t ^ 4 + 2) + b.

Definition easeInOutQuint : TEasingFunction := fun t b c d =>
  let t := t / (d / 2) in
  if t <? 1 then easeInOutQuint_first t b c
  else easeInOutQuint_second t b c.

(** Sinusoidal easing in. *)
Definition easeInSine : TEasingFunction := fun t b c d =>
  - c * cos (t / d * halfPI) + c + b.

(** Sinusoidal easing out. *)
Definition easeOutSine : TEasingFunction := fun t b c d =>
  c * sin (t / d * halfPI) + b.

(** Sinusoidal easing in and out. *)
Definition easeInOutSine : TEasingFunction := fun t b c d =>
  - c / 2 * (cos (PI * t / d) - 1) + b.

(** Exponential easing in. *)
Definition easeInExpo : TEasingFunction := fun t b c d =>
  if t === 0 then b
  else c * Rpower 2 (10 * (t / d - 1)) + b.

(** Exponential easing out. *)
Definition easeOutExpo : TEasingFunction := fun t b c d =>
  if t === d then b + c
  else c * - (Rpower 2 (-10 * t / d) + 1) + b.

(** Exponential easing in and out. *)
Definition easeInOutExpo_first (t b c : R) : R :=
  c / 2 * Rpower 2 (10 * (t - 1)) + b.

Definition easeInOutExpo_second (t b c : R) : R :=
  let t := t - 1 in
  c / 2 * - (Rpower 2 (-10 * t) + 2) + b.

Definition easeInOutExpo : TEasingFunction := fun t b c d =>
  if t === 0 then b
  else if t === d then b + c
  else
    let t := t / (d / 2) in
    if t <? 1 then easeInOutExpo_first t b c
    else easeInOutExpo_second t b c.

(** Circular easing in. *)
Definition easeInCirc : TEasingFunction := fun t b c d =>
  let t := t / d in
  - c * (sqrt (1 - t * t) - 1) + b.

(** Circular easing out. *)
Definition easeOutCirc : TEasingFunction := fun t b c d =>
  let t := t / d - 1 in
  c * sqrt (1 - t * t) + b.

(** Circular easing in and out. *)
Definition easeInOutCirc_first (t b c : R) : R :=
  - c / 2 * (sqrt (1 - t ^ 2) - 1) + b.

Definition easeInOutCirc_second (t b c : R) : R :=
  let t := t - 2 in
  c / 2 * (sqrt (1 - t * t) + 1) + b.

Definition easeInOutCirc : TEasingFunction := fun t b c d =>
  let t := t / (d / 2) in
  if t <? 1 then easeInOutCirc_first t b c
  else easeInOutCirc_second t b c.

(** Elastic easing in.  [p] is initialised to [0], so [!p] holds and [p]
    becomes [d * 0.3]. *)
Definition easeInElastic : TEasingFunction := fun t b c d =>
  let s := 1.70158 in
  let a := c in
  let p := 0 in
  if t === 0 then b
  else
    let t := t / d in
    if t === 1 then b + c
    else
      let p := if p === 0 then d * 0.3 else p in
      let n := normalize a c p s in
      - elastic (Ease.a n) (Ease.s n) (Ease.p n) t d + b.

(** Elastic easing out. *)
Definition easeOutElastic : TEasingFunction := fun t b c d =>
  let s := 1.70158 in
  let a := c in
  let p := 0 in
  if t === 0 then b
  else
    let t := t / d in
    if t === 1 then b + c
    else
      let p := if p === 0 then d * 0.3 else p in
      let n := normalize a c p s in
      Ease.a n * Rpower 2 (-10 * t)
        * sin ((t * d - Ease.s n) * twoMathPi / Ease.p n)
        + Ease.c n + b.

(** Elastic easing in and out: the two branches take the normalized time and
    the result of [normalize]. *)
Definition easeInOutElastic_first (n : TNormalized) (t b d : R) : R :=
  -0.5 * elastic (Ease.a n) (Ease.s n) (Ease.p n) t d + b.

Definition easeInOutElastic_second (n : TNormalized) (t b d : R) : R :=
  let t := t - 1 in
  Ease.a n * Rpower 2 (-10 * t)
    * sin ((t * d - Ease.s n) * twoMathPi / Ease.p n) * 0.5
    + Ease.c n + b.

Definition easeInOutElastic_normalize (c d : R) : TNormalized :=
  let s := 1.70158 in
  let a := c in
  let p := 0 in
  let p := if p === 0 then d * (0.3 * 1.5) else p in
  normalize a c p s.

Definition easeInOutElastic : TEasingFunction := fun t b c d =>
  if t === 0 then b
  else
    let t := t / (d / 2) in
    if t === 2 then b + c
    else
      let n := easeInOutElastic_normalize c d in
      if t <? 1 then easeInOutElastic_first n t b d
      else easeInOutElastic_second n t b d.

(** The default of the optional fifth parameter of the back curves. *)
Definition default_s : R := 1.70158.

(** Backwards easing in. *)
Definition easeInBack (t b c d s : R) : R :=
  let t := t / d in
  c * t * t * ((s + 1) * t - s) + b.

(** Backwards easing out. *)
Definition easeOutBack (t b c d s : R) : R :=
  let t := t / d - 1 in
  c * (t * t * ((s + 1) * t + s) + 1) + b.

(** Backwards easing in and out. *)
Definition easeInOutBack_first (t b c s : R) : R :=
  let s := s * 1.525 in
  c / 2 * (t * t * ((s + 1) * t - s)) + b.

Definition easeInOutBack_second (t b c s : R) : R :=
  let t := t - 2 in
  let s := s * 1.525 in
  c / 2 * (t * t * ((s + 1) * t + s) + 2) + b.

Definition easeInOutBack (t b c d s : R) : R :=
  let t := t / (d / 2) in
  if t <? 1 then easeInOutBack_first t b c s
  else easeInOutBack_second t b c s.

(** Bouncing easing out. *)
Definition easeOutBounce : TEasingFunction := fun t b c d =>
  let t := t / d in
  if t <? (1 / 2.75) then
    c * (7.5625 * t * t) + b
  else if t <? (2 / 2.75) then
    let t := t - 1.5 / 2.75 in
    c * (7.5625 * t * t + 0.75) + b
  else if t <? (2.5 / 2.75) then
    let t := t - 2.25 / 2.75 in
    c * (7.5625 * t * t + 0.9375) + b
  else
    let t := t - 2.625 / 2.75 in
    c * (7.5625 * t * t + 0.984375) + b.

(** Bouncing easing in. *)
Definition easeInBounce : TEasingFunction := fun t b c d =>
  c - easeOutBounce (d - t) 0 c d + b.

(** Bouncing easing in and out. *)
Definition easeInOutBounce_first (t b c d : R) : R :=
  easeInBounce (t * 2) 0 c d * 0.5 + b.

Definition easeInOutBounce_second (t b c d : R) : R :=
  easeOutBounce (t * 2 - d) 0 c d * 0.5 + c * 0.5 + b.

Definition easeInOutBounce : TEasingFunction := fun t b c d =>
  if t <? (d / 2) then easeInOutBounce_first t b c d
  else easeInOutBounce_second t b c d.

(** Quadratic easing in. *)
Definition easeInQuad : TEasingFunction := fun t b c d =>
  let t := t / d in
  c * t * t + b.

(** Quadratic easing out. *)
Definition easeOutQuad : TEasingFunction := fun t b c d =>
  let t := t / d in
  - c * t * (t - 2) + b.

(** Quadratic easing in and out. *)
Definition easeInOutQuad_first (t b c : R) : R := c / 2 * t ^ 2 + b.

Definition easeInOutQuad_second (t b c : R) : R :=
  let t := t - 1 in
  - c / 2 * (t * (t - 2) - 1) + b.

Definition easeInOutQuad : TEasingFunction := fun t b c d =>
  let t := t / (d / 2) in
  if t <? 1 then easeInOutQuad_first t b c
  else easeInOutQuad_second t b c.

(** Cubic easing in. *)
Definition easeInCubic : TEasingFunction := fun t b c d =>
  let t := t / d in
  c * t * t * t + b.

(** The catalog: the curves the module exports, by name, each as a
    [TEasingFunction]; the back curves take the default of their optional
    fifth parameter. *)
Definition catalog : list (string * TEasingFunction) :=
  [ ("easeOutCubic", easeOutCubic);
    ("easeInOutCubic", easeInOutCubic);
    ("easeInQuart", easeInQuart);
    ("easeOutQuart", easeOutQuart);
    ("easeInOutQuart", easeInOutQuart);
    ("easeInQuint", easeInQuint);
    ("easeOutQuint", easeOutQuint);
    ("easeInOutQuint", easeInOutQuint);
    ("easeInSine", easeInSine);
    ("easeOutSine", easeOutSine);
    ("easeInOutSine", easeInOutSine);
    ("easeInExpo", easeInExpo);
    ("easeOutExpo", easeOutExpo);
    ("easeInOutExpo", easeInOutExpo);
    ("easeInCirc", easeInCirc);
    ("easeOutCirc", easeOutCirc);
    ("easeInOutCirc", easeInOutCirc);
    ("easeInElastic", easeInElastic);
    ("easeOutElastic", easeOutElastic);
    ("easeInOutElastic", easeInOutElastic);
    ("easeInBack", fun t b c d => easeInBack t b c d default_s);
    ("easeOutBack", fun t b c d => easeOutBack t b c d default_s);
    ("easeInOutBack", fun t b c d => easeInOutBack t b c d default_s);
    ("easeOutBounce", easeOutBounce);
    ("easeInBounce", easeInBounce);
    ("easeInOutBounce", easeInOutBounce);
    ("easeInQuad", easeInQuad);
    ("easeOutQuad", easeOutQuad);
    ("easeInOutQuad", easeInOutQuad);
    ("easeInCubic", easeInCubic) ].

(** The exponential family, whose end points the spec documents as special
    cases. *)
Definition exponential (name : string) : Prop :=
  name = "easeInExpo" \/ name = "easeOutExpo" \/ name = "easeInOutExpo".

(** The boundary conditions of a curve [f] for a duration [d]: the value at
    time [0] is the start value, the value at time [d] is start plus delta. *)
Definition starts_at_b (f : TEasingFunction) (d : R) : Prop :=
  forall b c : R, f 0 b c d = b.

Definition ends_at_b_plus_c (f : TEasingFunction) (d : R) : Prop :=
  forall b c : R, f d b c d = b + c.

Definition boundary_conditions (f : TEasingFunction) (d : R) : Prop :=
  starts_at_b f d /\ ends_at_b_plus_c f d.

End Ease.

(** ** [src/util/misc/objectTransforms.ts] *)

Module ObjectTransforms.

(** *** Imported types *)

(** [Point] of [../../point.class]: the two coordinates. *)
Record Point : Type := mkPoint { x : R; y : R }.

(** [TMat2D] of [../../typedefs]: the six coefficients [[a, b, c, d, e, f]]
    of an affine map, by index. *)
Record TMat2D : Type := Mat2D { m0 : R; m1 : R; m2 : R; m3 : R; m4 : R; m5 : R }.

(** The result of [qrDecompose].  The flip components are optional: the rest
    pattern [...otherOptions] copies them when the decomposition has them. *)
Module Qr.
Record t : Type := mk {
  translateX : R; translateY : R;
  scaleX : R; scaleY : R;
  skewX : R; skewY : R;
  angle : R;
  flipX : option bool; flipY : option bool
}.
End Qr.

(** [TComposeMatrixArgs] of [./matrix]: the components a matrix is composed
    from. *)
Module Compose.
Record t : Type := mk {
  translateX : R; translateY : R;
  scaleX : R; scaleY : R;
  skewX : R; skewY : R;
  angle : R;
  flipX : bool; flipY : bool
}.
End Compose.

(** The record [saveObjectTransform] returns,
    [TComposeMatrixArgs & { left: number, top: number }]. *)
Module Saved.
Record t : Type := mk {
  scaleX : R; scaleY : R;
  skewX : R; skewY : R;
  angle : R;
  left : R;
  flipX : bool; flipY : bool;
  top : R
}.
End Saved.

(** [FabricObject]: the transform fields of a drawable object. *)
Record FabricObject : Type := mkObject {
  scaleX : R; scaleY : R;
  skewX : R; skewY : R;
  angle : R;
  flipX : bool; flipY : bool;
  left : R; top : R
}.

(** Field assignments [object.f = v]. *)
Definition set_scaleX (v : R) (o : FabricObject) : FabricObject :=
  mkObject v (scaleY o) (skewX o) (skewY o) (angle o) (flipX o) (flipY o) (left o) (top o).
Definition set_scaleY (v : R) (o : FabricObject) : FabricObject :=
  mkObject (scaleX o) v (skewX o) (skewY o) (angle o) (flipX o) (flipY o) (left o) (top o).
Definition set_skewX (v : R) (o : FabricObject) : FabricObject :=
  mkObject (scaleX o) (scaleY o) v (skewY o) (angle o) (flipX o) (flipY o) (left o) (top o).
Definition set_skewY (v : R) (o : FabricObject) : FabricObject :=
  mkObject (scaleX o) (scaleY o) (skewX o) v (angle o) (flipX o) (flipY o) (left o) (top o).
Definition set_angle (v : R) (o : FabricObject) : FabricObject :=
  mkObject (scaleX o) (scaleY o) (skewX o) (skewY o) v (flipX o) (flipY o) (left o) (top o).
Definition set_flipX (v : bool) (o : FabricObject) : FabricObject :=
  mkObject (scaleX o) (scaleY o) (skewX o) (skewY o) (angle o) v (flipY o) (left o) (top o).
Definition set_flipY (v : bool) (o : FabricObject) : FabricObject :=
  mkObject (scaleX o) (scaleY o) (skewX o) (skewY o) (angle o) (flipX o) v (left o) (top o).
Definition set_left (v : R) (o : FabricObject) : FabricObject :=
  mkObject (scaleX o) (scaleY o) (skewX o) (skewY o) (angle o) (flipX o) (flipY o) v (top o).
Definition set_top (v : R) (o : FabricObject) : FabricObject :=
  mkObject (scaleX o) (scaleY o) (skewX o) (skewY o) (angle o) (flipX o) (flipY o) (left o) v.

(** *** Matrix primitives of [./matrix] *)

(** Modelled from the spec: [./matrix] is not among the source files.  The
    spec describes a matrix as "6 numeric coefficients [a, b, c, d, e, f]
    representing scale/skew/rotation (a,b,c,d) and translation (e,f)" and
    [multiply(m1, m2)] as the product of two such affine maps (the point
    [(x, y)] goes to [(a x + c y + e, b x + d y + f)]). *)
Definition multiplyTransformMatrices (a b : TMat2D) : TMat2D :=
  Mat2D (m0 a * m0 b + m2 a * m1 b)
        (m1 a * m0 b + m3 a * m1 b)
        (m0 a * m2 b + m2 a * m3 b)
        (m1 a * m2 b + m3 a * m3 b)
        (m0 a * m4 b + m2 a * m5 b + m4 a)
        (m1 a * m4 b + m3 a * m5 b + m5 a).

(** The determinant of the linear part. *)
Definition det (t : TMat2D) : R := m0 t * m3 t - m1 t * m2 t.

(** Modelled from the spec: [invert(matrix)], the inverse affine map; see
    [multiplyTransformMatrices]. *)
Definition invertTransform (t : TMat2D) : TMat2D :=
  let a := 1 / det t in
  let r0 := a * m3 t in
  let r1 := - a * m1 t in
  let r2 := - a * m2 t in
  let r3 := a * m0 t in
  Mat2D r0 r1 r2 r3
        (- (r0 * m4 t + r2 * m5 t))
        (- (r1 * m4 t + r3 * m5 t)).

(** *** The external collaborators

    [qrDecompose] (and its counterpart [composeMatrix]) of [./matrix] and the
    methods of the drawable object are not among the source files: they are
    an interface, and the functions below are written against it. *)
Class External : Type := {
  (** [qrDecompose(transform)] *)
  qrDecompose : TMat2D -> Qr.t;
  (** [composeMatrix(args)] *)
  composeMatrix : Compose.t -> TMat2D;
  (** [object.calcOwnMatrix()] *)
  calcOwnMatrix : FabricObject -> TMat2D;
  (** [object.getCenterPoint()] *)
  getCenterPoint : FabricObject -> Point;
  (** [object.set({ scaleX, scaleY })] *)
  set : FabricObject -> R -> R -> FabricObject;
  (** [object.setPositionByOrigin(pos, originX, originY)] *)
  setPositionByOrigin : FabricObject -> Point -> string -> string -> FabricObject;
  (** [object.rotate(angle)] *)
  rotate : FabricObject -> R -> FabricObject
}.

Section Functions.

Context `{External}.

(** [Object.assign(object, otherOptions)], where [otherOptions] is what the
    rest pattern leaves of the decomposition once [translateX], [translateY],
    [scaleX] and [scaleY] are taken out. *)
Definition assign_otherOptions (object : FabricObject) (q : Qr.t) : FabricObject :=
  let object := set_skewX (Qr.skewX q) object in
  let object := set_skewY (Qr.skewY q) object in
  let object := set_angle (Qr.angle q) object in
  let object :=
    match Qr.flipX q with Some v => set_flipX v object | None => object end in
  match Qr.flipY q with Some v => set_flipY v object | None => object end.

(** Discard an object transform state and apply the one from the matrix. *)
Definition applyTransformToObject (object : FabricObject) (transform : TMat2D)
  : FabricObject :=
  let q := qrDecompose transform in
  let center := mkPoint (Qr.translateX q) (Qr.translateY q) in
  let object := set_flipX false object in
  let object := set_flipY false object in
  let object := assign_otherOptions object q in
  let object := set object (Qr.scaleX q) (Qr.scaleY q) in
  setPositionByOrigin object center "center" "center".

(** Given an object and a transform, apply the inverse transform to the
    object. *)
Definition removeTransformFromObject (object : FabricObject) (transform : TMat2D)
  : FabricObject :=
  let inverted := invertTransform transform in
  let finalTransform := multiplyTransformMatrices inverted (calcOwnMatrix object) in
  applyTransformToObject object finalTransform.

(** Given an object and a transform, apply the transform to the object. *)
Definition addTransformToObject (object : FabricObject) (transform : TMat2D)
  : FabricObject :=
  applyTransformToObject object
    (multiplyTransformMatrices transform (calcOwnMatrix object)).

(** Reset an object transform state to neutral.  Top and left are not
    accounted for. *)
Definition resetObjectTransform (target : FabricObject) : FabricObject :=
  let target := set_scaleX 1 target in
  let target := set_scaleY 1 target in
  let target := set_skewX 0 target in
  let target := set_skewY 0 target in
  let target := set_flipX false target in
  let target := set_flipY false target in
  rotate target 0.

(** *** Contracts of the external collaborators *)

(** [object.set({ scaleX, scaleY })] assigns the two fields. *)
Definition set_assigns : Prop :=
  forall (o : FabricObject) (sx sy : R),
    set o sx sy = set_scaleY sy (set_scaleX sx o).

(** [object.rotate(angle)] assigns the angle. *)
Definition rotate_assigns : Prop :=
  forall (o : FabricObject) (a : R), rotate o a = set_angle a o.

(** [object.setPositionByOrigin(pos, 'center', 'center')] writes the
    position fields only, and makes [pos] the centre of the object. *)
Definition setPositionByOrigin_repositions : Prop :=
  forall (o : FabricObject) (pos : Point),
    let o' := setPositionByOrigin o pos "center" "center" in
    scaleX o' = scaleX o /\ scaleY o' = scaleY o
    /\ skewX o' = skewX o /\ skewY o' = skewY o
    /\ angle o' = angle o
    /\ flipX o' = flipX o /\ flipY o' = flipY o
    /\ getCenterPoint o' = pos.

(** The decomposition yields no flip components. *)
Definition qrDecompose_no_flip : Prop :=
  forall t : TMat2D,
    Qr.flipX (qrDecompose t) = None /\ Qr.flipY (qrDecompose t) = None.

(** The components of a decomposition, as arguments of [composeMatrix]; a
    flip the decomposition does not give is [false]. *)
Definition composeArgs (q : Qr.t) : Compose.t :=
  Compose.mk (Qr.translateX q) (Qr.translateY q)
             (Qr.scaleX q) (Qr.scaleY q)
             (Qr.skewX q) (Qr.skewY q)
             (Qr.angle q)
             (default false (Qr.flipX q)) (default false (Qr.flipY q)).

(** The inverse-pair contract: recomposing the components of a decomposition
    reproduces the matrix. *)
Definition compose_decompose : Prop :=
  forall t : TMat2D, composeMatrix (composeArgs (qrDecompose t)) = t.

(** The own matrix of an object is recomputed from its transform fields,
    with its centre as the translation. *)
Definition ownArgs (o : FabricObject) : Compose.t :=
  Compose.mk (x (getCenterPoint o)) (y (getCenterPoint o))
             (scaleX o) (scaleY o)
             (skewX o) (skewY o)
             (angle o)
             (flipX o) (flipY o).

Definition calcOwnMatrix_composes : Prop :=
  forall o : FabricObject, calcOwnMatrix o = composeMatrix (ownArgs o).

End Functions.

(** *** An implementation of the interface

    A small implementation, to show that the contracts above can be met
    together.  Its decomposition extracts no rotation: the linear
    coefficients are kept as the scales and the shears, and the angle is
    [0].  An object is positioned by its centre. *)

Definition sign (flip : bool) : R := if flip then -1 else 1.

Definition translation (tx ty : R) : TMat2D := Mat2D 1 0 0 1 tx ty.

Definition rotation (degrees : R) : TMat2D :=
  let theta := degrees * PI / 180 in
  Mat2D (cos theta) (sin theta) (- sin theta) (cos theta) 0 0.

Definition reference : External := {|
  qrDecompose t :=
    Qr.mk (m4 t) (m5 t) (m0 t) (m3 t) (m2 t) (m1 t) 0 None None;
  composeMatrix args :=
    multiplyTransformMatrices
      (translation (Compose.translateX args) (Compose.translateY args))
      (multiplyTransformMatrices
         (rotation (Compose.angle args))
         (Mat2D (sign (Compose.flipX args) * Compose.scaleX args)
                (Compose.skewY args)
                (Compose.skewX args)
                (sign (Compose.flipY args) * Compose.scaleY args)
                0 0));
  calcOwnMatrix o :=
    multiplyTransformMatrices
      (translation (left o) (top o))
      (multiplyTransformMatrices
         (rotation (angle o))
         (Mat2D (sign (flipX o) * scaleX o) (skewY o)
                (skewX o) (sign (flipY o) * scaleY o)
                0 0));
  getCenterPoint o := mkPoint (left o) (top o);
  set o sx sy := set_scaleY sy (set_scaleX sx o);
  setPositionByOrigin o pos _ _ := set_top (y pos) (set_left (x pos) o);
  rotate o a := set_angle a o
|}.

(** Extract Object transform values. *)
Definition saveObjectTransform (target : FabricObject) : Saved.t :=
  Saved.mk (scaleX target) (scaleY target)
           (skewX target) (skewY target)
           (angle target)
           (left target)
           (flipX target) (flipY target)
           (top target).

(** *** The store

    Objects live in a store and are passed by reference.  A call of
    [saveObjectTransform] reads the target's cell and allocates the object
    literal it returns in a new cell. *)
Definition loc : Type := positive.

Inductive cell : Type :=
| CObject (o : FabricObject)
| CSaved (r : Saved.t).

Definition call_saveObjectTransform (h : gmap loc cell) (target : loc)
  : option (gmap loc cell * loc) :=
  match h !! target with
  | Some (CObject o) =>
      let r := fresh (dom h) in
      Some (<[r := CSaved (saveObjectTransform o)]> h, r)
  | _ => None
  end.

(** A later assignment to the fields of the object at [target]. *)
Definition mutate (h : gmap loc cell) (target : loc) (o : FabricObject)
  : gmap loc cell :=
  <[target := CObject o]> h.

End ObjectTransforms.

(** ** [sizeAfterTransform] of [src/util/misc/objectTransforms.ts] *)

Module SizeAfterTransform.

Import ObjectTransforms.

(** Modelled from the spec: [./boundingBoxFromPoints] is not among the source
    files; the spec has the corner points "transformed" by the matrix.  A
    point [(x, y)] goes to [(a x + c y + e, b x + d y + f)], as in
    [multiplyTransformMatrices]. *)
Definition transformPoint (p : Point) (t : TMat2D) : Point :=
  mkPoint (m0 t * x p + m2 t * y p + m4 t) (m1 t * x p + m3 t * y p + m5 t).

(** The bounding box [{ left, top, width, height }]. *)
Module BBox.
Record t : Type := mk { left : R; top : R; width : R; height : R }.
End BBox.

(** Modelled from the spec: [makeBoundingBoxFromPoints(points, transform)]
    "transforms all 4 corners, and returns the width/height of their
    axis-aligned bounding box": the extent of the transformed points along
    each axis.  The box of no point is not modelled. *)
Definition makeBoundingBoxFromPoints (points : list Point) (transform : TMat2D)
  : BBox.t :=
  match map (fun p => transformPoint p transform) points with
  | [] => BBox.mk 0 0 0 0
  | q :: qs =>
      let minX := fold_right Rmin (x q) (map x qs) in
      let maxX := fold_right Rmax (x q) (map x qs) in
      let minY := fold_right Rmin (y q) (map y qs) in
      let maxY := fold_right Rmax (y q) (map y qs) in
      BBox.mk minX minY (maxX - minX) (maxY - minY)
  end.

Section Size.

(** [TScaleMatrixArgs] and [calcDimensionsMatrix] of [./matrix] are not
    among the source files: the options are of any type, and the matrix
    built from them is a parameter. *)
Context {TScaleMatrixArgs : Type}.
Variable calcDimensionsMatrix : TScaleMatrixArgs -> TMat2D.

(** Given a width and height, return the size of the bounding box that can
    contain the box with width/height with applied transform described in
    options. *)
Definition sizeAfterTransform (width height : R) (options : TScaleMatrixArgs)
  : Point :=
  let dimX := width / 2 in
  let dimY := height / 2 in
  let points :=
    [ mkPoint (- dimX) (- dimY);
      mkPoint dimX (- dimY);
      mkPoint (- dimX) dimY;
      mkPoint dimX dimY ] in
  let transformMatrix := calcDimensionsMatrix options in
  let bbox := makeBoundingBoxFromPoints points transformMatrix in
  mkPoint (BBox.width bbox) (BBox.height bbox).

End Size.

End SizeAfterTransform.

(** ** Objects whose methods do more than assign

    [FabricObject] is [any]: the object brings its own [set] and [rotate].
    The two implementations below differ from [reference] in one method
    each, the way the objects of the library do. *)

Module OtherObjects.

Import ObjectTransforms.

(** [object.set({ scaleX, scaleY })] of an object that keeps its scales
    positive: a negative scale is stored without its sign and toggles the
    flip flag of its axis. *)
Definition set_flipping (o : FabricObject) (sx sy : R) : FabricObject :=
  let o :=
    if sx <? 0 then set_scaleX (- sx) (set_flipX (negb (flipX o)) o)
    else set_scaleX sx o in
  if sy <? 0 then set_scaleY (- sy) (set_flipY (negb (flipY o)) o)
  else set_scaleY sy o.

(** As [reference], with [set_flipping] for [set]. *)
Definition scale_flipping : External := {|
  qrDecompose := @qrDecompose reference;
  composeMatrix := @composeMatrix reference;
  calcOwnMatrix := @calcOwnMatrix reference;
  getCenterPoint := @getCenterPoint reference;
  set := set_flipping;
  setPositionByOrigin := @setPositionByOrigin reference;
  rotate := @rotate reference
|}.

(** An object of width and height [2] that is positioned by its top-left
    corner: the vector from the corner to the centre, the centre, and the
    corner that puts the centre at a point. *)
Definition half_diagonal (o : FabricObject) : Point :=
  let theta := angle o * PI / 180 in
  mkPoint (cos theta * scaleX o - sin theta * scaleY o)
          (sin theta * scaleX o + cos theta * scaleY o).

Definition centre (o : FabricObject) : Point :=
  mkPoint (left o + x (half_diagonal o)) (top o + y (half_diagonal o)).

Definition place_centre (c : Point) (o : FabricObject) : FabricObject :=
  set_top (y c - y (half_diagonal o)) (set_left (x c - x (half_diagonal o)) o).

(** [object.rotate(angle)] of such an object turns it about its centre: the
    angle is assigned and the corner moved so that the centre stays where it
    was. *)
Definition rotate_about_centre (o : FabricObject) (a : R) : FabricObject :=
  place_centre (centre o) (set_angle a o).

Definition corner_anchored : External := {|
  qrDecompose := @qrDecompose reference;
  composeMatrix := @composeMatrix reference;
  calcOwnMatrix o :=
    @composeMatrix reference
      (Compose.mk (x (centre o)) (y (centre o)) (scaleX o) (scaleY o)
                  (skewX o) (skewY o) (angle o) (flipX o) (flipY o));
  getCenterPoint := centre;
  set := @set reference;
  setPositionByOrigin o pos _ _ := place_centre pos o;
  rotate := rotate_about_centre
|}.

End OtherObjects.

(** ** Families of easing curves *)

Module EaseFamilies.

Import Ease.

(** The families whose "in" and "out" curves are compared below, each with
    its two curves; the back curves take the default overshoot. *)
Definition in_out_pairs : list (string * (TEasingFunction * TEasingFunction)) :=
  [ ("Quad", (easeInQuad, easeOutQuad));
    ("Quart", (easeInQuart, easeOutQuart));
    ("Sine", (easeInSine, easeOutSine));
    ("Circ", (easeInCirc, easeOutCirc));
    ("Elastic", (easeInElastic, easeOutElastic));
    ("Back", (fun t b c d => easeInBack t b c d default_s,
              fun t b c d => easeOutBack t b c d default_s));
    ("Bounce", (easeInBounce, easeOutBounce)) ].

(** The "in and out" curves other than the exponential one. *)
Definition in_out_curves : list (string * TEasingFunction) :=
  [ ("easeInOutQuad", easeInOutQuad);
    ("easeInOutCubic", easeInOutCubic);
    ("easeInOutQuart", easeInOutQuart);
    ("easeInOutQuint", easeInOutQuint);
    ("easeInOutSine", easeInOutSine);
    ("easeInOutCirc", easeInOutCirc);
    ("easeInOutElastic", easeInOutElastic);
    ("easeInOutBack", fun t b c d => easeInOutBack t b c d default_s);
    ("easeInOutBounce", easeInOutBounce) ].

(** The curves that rise from the start value to the end value without
    turning back. *)
Definition rising_curves : list (string * TEasingFunction) :=
  [ ("easeInQuad", easeInQuad);
    ("easeOutQuad", easeOutQuad);
    ("easeInOutQuad", easeInOutQuad);
    ("easeInCubic", easeInCubic);
    ("easeInOutCubic", easeInOutCubic);
    ("easeInQuart", easeInQuart);
    ("easeOutQuart", easeOutQuart);
    ("easeInOutQuart", easeInOutQuart);
    ("easeInQuint", easeInQuint);
    ("easeInOutQuint", easeInOutQuint);
    ("easeInSine", easeInSine);
    ("easeOutSine", easeOutSine);
    ("easeInOutSine", easeInOutSine);
    ("easeInExpo", easeInExpo);
    ("easeInCirc", easeInCirc);
    ("easeOutCirc", easeOutCirc);
    ("easeInOutCirc", easeInOutCirc) ].

(** The bounce curves. *)
Definition bounce_curves : list (string * TEasingFunction) :=
  [ ("easeOutBounce", easeOutBounce);
    ("easeInBounce", easeInBounce);
    ("easeInOutBounce", easeInOutBounce) ].

End EaseFamilies.

(** * Properties of the easing curves *)

Module EaseFacts.

Import Constants Ease.

(** ** Deciding the comparisons *)

Lemma Reqb_refl (x : R) : (x === x) = true.
Proof. unfold Reqb. destruct (Req_dec_T x x); [reflexivity | contradiction]. Qed.

Lemma Reqb_eq (x y : R) : x = y -> (x === y) = true.
Proof. intros ->. apply Reqb_refl. Qed.

Lemma Reqb_neq (x y : R) : x <> y -> (x === y) = false.
Proof.
  intros Hne. unfold Reqb. destruct (Req_dec_T x y); [contradiction | reflexivity].
Qed.

Lemma Rltb_lt (x y : R) : x < y -> (x <? y) = true.
Proof.
  intros Hlt. unfold Rltb. destruct (Rlt_dec x y); [reflexivity | contradiction].
Qed.

Lemma Rltb_ge (x y : R) : y <= x -> (x <? y) = false.
Proof.
  intros Hge. unfold Rltb. destruct (Rlt_dec x y); [lra | reflexivity].
Qed.

(** The normalized times at the two ends and in the middle of [[0, d]]. *)
Lemma div_0_l (d : R) : 0 / d = 0.
Proof. unfold Rdiv. ring. Qed.

Lemma div_same (d : R) : d <> 0 -> d / d = 1.
Proof. intros Hd. field. exact Hd. Qed.

Lemma div_half (d : R) : d <> 0 -> d / (d / 2) = 2.
Proof. intros Hd. field. exact Hd. Qed.

Lemma div_mid (d : R) : d <> 0 -> d / 2 / (d / 2) = 1.
Proof. intros Hd. field. exact Hd. Qed.

Lemma Rpower_2_0 : Rpower 2 0 = 1.
Proof. apply Rpower_O. lra. Qed.

(** Rewrites the normalized time at an end point and decides the tests on it. *)
Ltac at_end Hd :=
  cbv zeta;
  rewrite ?div_0_l, ?(div_same _ Hd), ?(div_half _ Hd), ?(div_mid _ Hd);
  repeat first
    [ rewrite Reqb_refl
    | rewrite Reqb_neq by lra
    | rewrite Rltb_lt by lra
    | rewrite Rltb_ge by lra ];
  cbv zeta.

(** Closes an identity between polynomial expressions with constant
    divisors. *)
Ltac arith := cbv zeta; first [ ring | field | lra ].

(** ** Polynomial curves *)

Lemma easeInQuad_boundary (d : R) : d <> 0 -> boundary_conditions easeInQuad d.
Proof.
  intros Hd. split; intros b c; unfold easeInQuad; at_end Hd; arith.
Qed.

Lemma easeOutQuad_boundary (d : R) : d <> 0 -> boundary_conditions easeOutQuad d.
Proof.
  intros Hd. split; intros b c; unfold easeOutQuad; at_end Hd; arith.
Qed.

Lemma easeInOutQuad_boundary (d : R) : d <> 0 -> boundary_conditions easeInOutQuad d.
Proof.
  intros Hd. split; intros b c; unfold easeInOutQuad; at_end Hd;
    unfold easeInOutQuad_first, easeInOutQuad_second; arith.
Qed.

Lemma easeInCubic_boundary (d : R) : d <> 0 -> boundary_conditions easeInCubic d.
Proof.
  intros Hd. split; intros b c; unfold easeInCubic; at_end Hd; arith.
Qed.

Lemma easeInOutCubic_boundary (d : R) : d <> 0 -> boundary_conditions easeInOutCubic d.
Proof.
  intros Hd. split; intros b c; unfold easeInOutCubic; at_end Hd;
    unfold easeInOutCubic_first, easeInOutCubic_second; arith.
Qed.

Lemma easeInQuart_boundary (d : R) : d <> 0 -> boundary_conditions easeInQuart d.
Proof.
  intros Hd. split; intros b c; unfold easeInQuart; at_end Hd; arith.
Qed.

Lemma easeOutQuart_boundary (d : R) : d <> 0 -> boundary_conditions easeOutQuart d.
Proof.
  intros Hd. split; intros b c; unfold easeOutQuart; at_end Hd; arith.
Qed.

Lemma easeInOutQuart_boundary (d : R) : d <> 0 -> boundary_conditions easeInOutQuart d.
Proof.
  intros Hd. split; intros b c; unfold easeInOutQuart; at_end Hd;
    unfold easeInOutQuart_first, easeInOutQuart_second; arith.
Qed.

Lemma easeInQuint_boundary (d : R) : d <> 0 -> boundary_conditions easeInQuint d.
Proof.
  intros Hd. split; intros b c; unfold easeInQuint; at_end Hd; arith.
Qed.

Lemma easeInOutQuint_boundary (d : R) : d <> 0 -> boundary_conditions easeInOutQuint d.
Proof.
  intros Hd. split; intros b c; unfold easeInOutQuint; at_end Hd;
    unfold easeInOutQuint_first, easeInOutQuint_second; arith.
Qed.

(** ** Sinusoidal curves *)

Lemma easeInSine_boundary (d : R) : d <> 0 -> boundary_conditions easeInSine d.
Proof.
  intros Hd. split; intros b c; unfold easeInSine, halfPI; at_end Hd.
  - rewrite Rmult_0_l, cos_0. ring.
  - rewrite Rmult_1_l, cos_PI2. ring.
Qed.

Lemma easeOutSine_boundary (d : R) : d <> 0 -> boundary_conditions easeOutSine d.
Proof.
  intros Hd. split; intros b c; unfold easeOutSine, halfPI; at_end Hd.
  - rewrite Rmult_0_l, sin_0. ring.
  - rewrite Rmult_1_l, sin_PI2. ring.
Qed.

Lemma easeInOutSine_boundary (d : R) : d <> 0 -> boundary_conditions easeInOutSine d.
Proof.
  intros Hd. split; intros b c; unfold easeInOutSine.
  - replace (PI * 0 / d) with 0 by (unfold Rdiv; ring).
    rewrite cos_0. field.
  - replace (PI * d / d) with PI by (field; exact Hd).
    rewrite cos_PI. field.
Qed.

(** ** Exponential curves *)

Lemma easeInExpo_start (b c d : R) : easeInExpo 0 b c d = b.
Proof. unfold easeInExpo. rewrite Reqb_refl. reflexivity. Qed.

Lemma easeInExpo_finish (b c d : R) : d <> 0 -> easeInExpo d b c d = b + c.
Proof.
  intros Hd. unfold easeInExpo. rewrite (Reqb_neq d 0 Hd), (div_same d Hd).
  replace (10 * (1 - 1)) with 0 by ring. rewrite Rpower_2_0. ring.
Qed.

Lemma easeInExpo_boundary (d : R) : d <> 0 -> boundary_conditions easeInExpo d.
Proof.
  intros Hd. split; intros b c;
    [apply easeInExpo_start | apply easeInExpo_finish; exact Hd].
Qed.

Lemma easeOutExpo_finish (b c d : R) : easeOutExpo d b c d = b + c.
Proof. unfold easeOutExpo. rewrite Reqb_refl. reflexivity. Qed.

Lemma easeInOutExpo_start (b c d : R) : easeInOutExpo 0 b c d = b.
Proof. unfold easeInOutExpo. rewrite Reqb_refl. reflexivity. Qed.

Lemma easeInOutExpo_finish (b c d : R) : d <> 0 -> easeInOutExpo d b c d = b + c.
Proof.
  intros Hd. unfold easeInOutExpo. rewrite (Reqb_neq d 0 Hd), Reqb_refl. reflexivity.
Qed.

Lemma easeInOutExpo_boundary (d : R) : d <> 0 -> boundary_conditions easeInOutExpo d.
Proof.
  intros Hd. split; intros b c;
    [apply easeInOutExpo_start | apply easeInOutExpo_finish; exact Hd].
Qed.

(** ** Circular curves *)

Lemma easeInCirc_boundary (d : R) : d <> 0 -> boundary_conditions easeInCirc d.
Proof.
  intros Hd. split; intros b c; unfold easeInCirc; at_end Hd.
  - replace (1 - 0 * 0) with 1 by ring. rewrite sqrt_1. ring.
  - replace (1 - 1 * 1) with 0 by ring. rewrite sqrt_0. ring.
Qed.

Lemma easeOutCirc_boundary (d : R) : d <> 0 -> boundary_conditions easeOutCirc d.
Proof.
  intros Hd. split; intros b c; unfold easeOutCirc; at_end Hd.
  - replace (1 - (0 - 1) * (0 - 1)) with 0 by ring. rewrite sqrt_0. ring.
  - replace (1 - (1 - 1) * (1 - 1)) with 1 by ring. rewrite sqrt_1. ring.
Qed.

Lemma easeInOutCirc_boundary (d : R) : d <> 0 -> boundary_conditions easeInOutCirc d.
Proof.
  intros Hd. split; intros b c; unfold easeInOutCirc; at_end Hd;
    unfold easeInOutCirc_first, easeInOutCirc_second; cbv zeta.
  - replace (1 - 0 ^ 2) with 1 by ring. rewrite sqrt_1. field.
  - replace (1 - (2 - 2) * (2 - 2)) with 1 by ring. rewrite sqrt_1. field.
Qed.

(** ** Elastic curves: both ends are returned by the explicit tests *)

Lemma easeInElastic_start (b c d : R) : easeInElastic 0 b c d = b.
Proof. unfold easeInElastic. cbv zeta. rewrite Reqb_refl. reflexivity. Qed.

Lemma easeInElastic_finish (b c d : R) : d <> 0 -> easeInElastic d b c d = b + c.
Proof.
  intros Hd. unfold easeInElastic. cbv zeta.
  rewrite (Reqb_neq d 0 Hd), (div_same d Hd), Reqb_refl. reflexivity.
Qed.

Lemma easeOutElastic_start (b c d : R) : easeOutElastic 0 b c d = b.
Proof. unfold easeOutElastic. cbv zeta. rewrite Reqb_refl. reflexivity. Qed.

Lemma easeOutElastic_finish (b c d : R) : d <> 0 -> easeOutElastic d b c d = b + c.
Proof.
  intros Hd. unfold easeOutElastic. cbv zeta.
  rewrite (Reqb_neq d 0 Hd), (div_same d Hd), Reqb_refl. reflexivity.
Qed.

Lemma easeInOutElastic_start (b c d : R) : easeInOutElastic 0 b c d = b.
Proof. unfold easeInOutElastic. rewrite Reqb_refl. reflexivity. Qed.

Lemma easeInOutElastic_finish (b c d : R) : d <> 0 -> easeInOutElastic d b c d = b + c.
Proof.
  intros Hd. unfold easeInOutElastic. cbv zeta.
  rewrite (Reqb_neq d 0 Hd), (div_half d Hd), Reqb_refl. reflexivity.
Qed.

Lemma easeInElastic_boundary (d : R) : d <> 0 -> boundary_conditions easeInElastic d.
Proof.
  intros Hd. split; intros b c;
    [apply easeInElastic_start | apply easeInElastic_finish; exact Hd].
Qed.

Lemma easeOutElastic_boundary (d : R) : d <> 0 -> boundary_conditions easeOutElastic d.
Proof.
  intros Hd. split; intros b c;
    [apply easeOutElastic_start | apply easeOutElastic_finish; exact Hd].
Qed.

Lemma easeInOutElastic_boundary (d : R) :
  d <> 0 -> boundary_conditions easeInOutElastic d.
Proof.
  intros Hd. split; intros b c;
    [apply easeInOutElastic_start | apply easeInOutElastic_finish; exact Hd].
Qed.

(** ** Back curves, for every overshoot [s] *)

Lemma easeInBack_boundary (d s : R) :
  d <> 0 -> boundary_conditions (fun t b c d => easeInBack t b c d s) d.
Proof.
  intros Hd. split; intros b c; unfold easeInBack; at_end Hd; arith.
Qed.

Lemma easeOutBack_boundary (d s : R) :
  d <> 0 -> boundary_conditions (fun t b c d => easeOutBack t b c d s) d.
Proof.
  intros Hd. split; intros b c; unfold easeOutBack; at_end Hd; arith.
Qed.

Lemma easeInOutBack_boundary (d s : R) :
  d <> 0 -> boundary_conditions (fun t b c d => easeInOutBack t b c d s) d.
Proof.
  intros Hd. split; intros b c; unfold easeInOutBack; at_end Hd;
    unfold easeInOutBack_first, easeInOutBack_second; arith.
Qed.

(** ** Bounce curves *)

Lemma easeOutBounce_start (b c d : R) : d <> 0 -> easeOutBounce 0 b c d = b.
Proof. intros Hd. unfold easeOutBounce; at_end Hd; arith. Qed.

Lemma easeOutBounce_finish (b c d : R) : d <> 0 -> easeOutBounce d b c d = c + b.
Proof. intros Hd. unfold easeOutBounce; at_end Hd; arith. Qed.

Lemma easeOutBounce_boundary (d : R) : d <> 0 -> boundary_conditions easeOutBounce d.
Proof.
  intros Hd. split; intros b c.
  - apply easeOutBounce_start, Hd.
  - rewrite easeOutBounce_finish by exact Hd. ring.
Qed.

Lemma easeInBounce_start (b c d : R) : d <> 0 -> easeInBounce 0 b c d = b.
Proof.
  intros Hd. unfold easeInBounce. rewrite Rminus_0_r, easeOutBounce_finish by exact Hd.
  ring.
Qed.

Lemma easeInBounce_finish (b c d : R) : d <> 0 -> easeInBounce d b c d = b + c.
Proof.
  intros Hd. unfold easeInBounce. replace (d - d) with 0 by ring.
  rewrite easeOutBounce_start by exact Hd. ring.
Qed.

Lemma easeInBounce_boundary (d : R) : d <> 0 -> boundary_conditions easeInBounce d.
Proof.
  intros Hd. split; intros b c;
    [apply easeInBounce_start | apply easeInBounce_finish]; exact Hd.
Qed.

Lemma easeInOutBounce_boundary (d : R) : 0 < d -> boundary_conditions easeInOutBounce d.
Proof.
  intros Hd. assert (Hd0 : d <> 0) by lra.
  split; intros b c; unfold easeInOutBounce.
  - rewrite Rltb_lt by lra. unfold easeInOutBounce_first.
    rewrite Rmult_0_l, easeInBounce_start by exact Hd0. ring.
  - rewrite Rltb_ge by lra. unfold easeInOutBounce_second.
    replace (d * 2 - d) with d by ring.
    rewrite easeOutBounce_finish by exact Hd0. lra.
Qed.

(** ** The three "out" curves that miss a boundary condition

    [easeOutCubic] and [easeOutQuint] divide the time by [d - 1], where
    their siblings [easeOutQuart], [easeOutCirc] and [easeOutBack] compute
    [t / d - 1]: at [t = 0] they return [b + c], and at [t = d] they miss
    [b + c].  [easeOutExpo] negates the whole sum [2 ** (-10 * t / d) + 1]:
    at [t = 0] it returns [b - 2 c], and next to [t = d] its formula is far
    from the [b + c] of its own test [t === d]. *)

Lemma easeOutCubic_at_0 (b c d : R) : d - 1 <> 0 -> easeOutCubic 0 b c d = b + c.
Proof. intros Hd. unfold easeOutCubic. cbv zeta. rewrite div_0_l. ring. Qed.

Lemma easeOutQuint_at_0 (b c d : R) : d - 1 <> 0 -> easeOutQuint 0 b c d = b + c.
Proof. intros Hd. unfold easeOutQuint. cbv zeta. rewrite div_0_l. ring. Qed.

Lemma easeOutExpo_at_0 (b c d : R) : d <> 0 -> easeOutExpo 0 b c d = b - 2 * c.
Proof.
  intros Hd. unfold easeOutExpo.
  rewrite Reqb_neq by (intros Heq; apply Hd; symmetry; exact Heq).
  replace (-10 * 0 / d) with 0 by (unfold Rdiv; ring).
  rewrite Rpower_2_0. ring.
Qed.

Lemma easeOutCubic_at_d (b c d : R) :
  d - 1 <> 0 -> easeOutCubic d b c d = c * ((d / (d - 1)) ^ 3 + 1) + b.
Proof. intros Hd. unfold easeOutCubic. cbv zeta. ring. Qed.

Lemma easeOutQuint_at_d (b c d : R) :
  d - 1 <> 0 -> easeOutQuint d b c d = c * ((d / (d - 1)) ^ 5 + 1) + b.
Proof. intros Hd. unfold easeOutQuint. cbv zeta. ring. Qed.

Lemma div_pred_neq_0 (d : R) : d <> 0 -> d - 1 <> 0 -> d / (d - 1) <> 0.
Proof.
  intros Hd Hd1 Hq. apply Hd.
  replace d with (d / (d - 1) * (d - 1)) by (field; exact Hd1).
  rewrite Hq. ring.
Qed.

Lemma easeOutCubic_misses_end (b c d : R) :
  d <> 0 -> d - 1 <> 0 -> c <> 0 -> easeOutCubic d b c d <> b + c.
Proof.
  intros Hd Hd1 Hc Heq. rewrite easeOutCubic_at_d in Heq by exact Hd1.
  assert (Hpow : (d / (d - 1)) ^ 3 <> 0)
    by (apply pow_nonzero, div_pred_neq_0; assumption).
  apply Hpow. apply (Rmult_eq_reg_l c); [lra | exact Hc].
Qed.

Lemma easeOutQuint_misses_end (b c d : R) :
  d <> 0 -> d - 1 <> 0 -> c <> 0 -> easeOutQuint d b c d <> b + c.
Proof.
  intros Hd Hd1 Hc Heq. rewrite easeOutQuint_at_d in Heq by exact Hd1.
  assert (Hpow : (d / (d - 1)) ^ 5 <> 0)
    by (apply pow_nonzero, div_pred_neq_0; assumption).
  apply Hpow. apply (Rmult_eq_reg_l c); [lra | exact Hc].
Qed.

(** ** The boundary conditions over the catalog *)

Lemma easeInOutBounce_negative_duration : easeInOutBounce 0 0 1 (-1) = 4.28125.
Proof.
  unfold easeInOutBounce. rewrite Rltb_ge by lra.
  unfold easeInOutBounce_second, easeOutBounce. cbv zeta.
  replace ((0 * 2 - -1) / -1) with (-1) by field.
  rewrite Rltb_lt by lra. lra.
Qed.

(** C1, as stated, fails: [easeInOutBounce] is in the catalog and is not an
    exponential curve, the duration [-1] is not zero, and
    [easeInOutBounce(0, 0, 1, -1)] is [4.28125], not the start value [0]. *)
Lemma boundary_conditions_counterexample :
  ~ (forall (name : string) (f : TEasingFunction),
       In (name, f) catalog -> ~ exponential name ->
       forall b c d : R, d <> 0 -> f 0 b c d = b /\ f d b c d = b + c).
Proof.
  intros Hall.
  destruct (Hall "easeInOutBounce" easeInOutBounce) with (b := 0) (c := 1) (d := -1)
    as [Hstart _].
  - unfold catalog. simpl. tauto.
  - unfold exponential. intros [Hn | [Hn | Hn]]; discriminate Hn.
  - lra.
  - rewrite easeInOutBounce_negative_duration in Hstart. lra.
Qed.

(** C1 (amended): every curve of the catalog other than [easeOutCubic],
    [easeOutQuint] and [easeOutExpo] takes the start value at time [0] and
    start plus delta at time [d], for every [b], [c] and every duration
    [d <> 0], which for [easeInOutBounce] has to be positive. *)
Theorem boundary_conditions_catalog :
  forall (name : string) (f : TEasingFunction),
    In (name, f) catalog ->
    name <> "easeOutCubic" -> name <> "easeOutQuint" -> name <> "easeOutExpo" ->
    forall d : R, d <> 0 -> (name = "easeInOutBounce" -> 0 < d) ->
    forall b c : R, f 0 b c d = b /\ f d b c d = b + c.
Proof.
  intros name f Hin Hcubic Hquint Hexpo d Hd Hpos b c.
  assert (Hbc : boundary_conditions f d).
  { unfold catalog in Hin. simpl in Hin.
    repeat (destruct Hin as [Hin | Hin];
            [ injection Hin as <- <-; try contradiction | ]);
      try contradiction.
    all: first
      [ apply easeInOutBounce_boundary; apply Hpos; reflexivity
      | auto using easeInOutCubic_boundary, easeInQuart_boundary,
          easeOutQuart_boundary, easeInOutQuart_boundary, easeInQuint_boundary,
          easeInOutQuint_boundary, easeInSine_boundary, easeOutSine_boundary,
          easeInOutSine_boundary, easeInExpo_boundary, easeInOutExpo_boundary,
          easeInCirc_boundary, easeOutCirc_boundary, easeInOutCirc_boundary,
          easeInElastic_boundary, easeOutElastic_boundary,
          easeInOutElastic_boundary, easeInBack_boundary, easeOutBack_boundary,
          easeInOutBack_boundary, easeOutBounce_boundary, easeInBounce_boundary,
          easeInQuad_boundary, easeOutQuad_boundary, easeInOutQuad_boundary,
          easeInCubic_boundary ]. }
  destruct Hbc as [Hstart Hfinish]. split; [apply Hstart | apply Hfinish].
Qed.

Lemma boundary_conditions_catalog_witness :
  easeInOutBounce 0 3 4 2 = 3 /\ easeInOutBounce 2 3 4 2 = 3 + 4.
Proof.
  apply (boundary_conditions_catalog "easeInOutBounce" easeInOutBounce).
  - unfold catalog. simpl. tauto.
  - discriminate.
  - discriminate.
  - discriminate.
  - lra.
  - intros _. lra.
Defined.

(** ** The in-out curves at the midpoint [t = d / 2]

    At [t = d / 2] the normalized time is [1] and the second branch is taken;
    each lemma compares its value there with the first branch's closed form
    at the same point. *)

Lemma easeInOutQuad_midpoint (b c d : R) :
  d <> 0 -> easeInOutQuad_first 1 b c = easeInOutQuad (d / 2) b c d.
Proof.
  intros Hd. unfold easeInOutQuad; at_end Hd.
  unfold easeInOutQuad_first, easeInOutQuad_second; arith.
Qed.

Lemma easeInOutCubic_midpoint (b c d : R) :
  d <> 0 -> easeInOutCubic_first 1 b c = easeInOutCubic (d / 2) b c d.
Proof.
  intros Hd. unfold easeInOutCubic; at_end Hd.
  unfold easeInOutCubic_first, easeInOutCubic_second; arith.
Qed.

Lemma easeInOutQuart_midpoint (b c d : R) :
  d <> 0 -> easeInOutQuart_first 1 b c = easeInOutQuart (d / 2) b c d.
Proof.
  intros Hd. unfold easeInOutQuart; at_end Hd.
  unfold easeInOutQuart_first, easeInOutQuart_second; arith.
Qed.

Lemma easeInOutQuint_midpoint (b c d : R) :
  d <> 0 -> easeInOutQuint_first 1 b c = easeInOutQuint (d / 2) b c d.
Proof.
  intros Hd. unfold easeInOutQuint; at_end Hd.
  unfold easeInOutQuint_first, easeInOutQuint_second; arith.
Qed.

Lemma easeInOutCirc_midpoint (b c d : R) :
  d <> 0 -> easeInOutCirc_first 1 b c = easeInOutCirc (d / 2) b c d.
Proof.
  intros Hd. unfold easeInOutCirc; at_end Hd.
  unfold easeInOutCirc_first, easeInOutCirc_second; cbv zeta.
  replace (1 - 1 ^ 2) with 0 by ring.
  replace (1 - (1 - 2) * (1 - 2)) with 0 by ring.
  rewrite sqrt_0. field.
Qed.

Lemma easeInOutBack_midpoint (b c d s : R) :
  d <> 0 -> easeInOutBack_first 1 b c s = easeInOutBack (d / 2) b c d s.
Proof.
  intros Hd. unfold easeInOutBack; at_end Hd.
  unfold easeInOutBack_first, easeInOutBack_second; arith.
Qed.

Lemma easeInOutBounce_midpoint (b c d : R) :
  d <> 0 ->
  easeInOutBounce_first (d / 2) b c d = easeInOutBounce (d / 2) b c d.
Proof.
  intros Hd. unfold easeInOutBounce. rewrite Rltb_ge by lra.
  unfold easeInOutBounce_first, easeInOutBounce_second.
  replace (d / 2 * 2) with d by field.
  replace (d - d) with 0 by ring.
  rewrite easeInBounce_finish, easeOutBounce_start by exact Hd. lra.
Qed.

(** With the amplitude [a = c] the elastic curves pass, [normalize] returns
    the amplitude [c] and the phase shift [p / 4] in every case. *)
Lemma normalize_amplitude_is_change (c p s : R) :
  normalize c c p s = Normalized c c p (p / 4).
Proof.
  unfold normalize, Rltb. destruct (Rlt_dec c (Rabs c)) as [Hlt | Hge].
  - reflexivity.
  - assert (Hs : p / twoMathPi * asin 1 = p / 4).
    { rewrite asin_1. unfold twoMathPi. field. apply PI_neq0. }
    destruct (Req_dec_T c 0) as [Hc | Hc].
    + rewrite (Reqb_eq c 0 Hc). simpl. rewrite Hs. reflexivity.
    + rewrite (Reqb_neq c 0 Hc). simpl.
      rewrite (div_same c Hc), Hs. reflexivity.
Qed.

Lemma easeInOutElastic_midpoint (b c d : R) :
  d <> 0 ->
  easeInOutElastic_first (easeInOutElastic_normalize c d) 1 b d
  = easeInOutElastic (d / 2) b c d.
Proof.
  intros Hd. unfold easeInOutElastic. cbv zeta.
  rewrite (Reqb_neq (d / 2) 0) by lra.
  rewrite (div_mid d Hd), (Reqb_neq 1 2), (Rltb_ge 1 1) by lra.
  unfold easeInOutElastic_normalize. cbv zeta.
  rewrite Reqb_refl, normalize_amplitude_is_change.
  unfold easeInOutElastic_first, easeInOutElastic_second, elastic. cbv zeta. simpl.
  replace (10 * (1 - 1)) with 0 by ring.
  replace (-10 * (1 - 1)) with 0 by ring.
  replace (((1 - 1) * d - d * (0.3 * 1.5) / 4) * twoMathPi / (d * (0.3 * 1.5)))
    with (- (PI / 2)) by (unfold twoMathPi; field; lra).
  rewrite Rpower_2_0, sin_neg, sin_PI2. lra.
Qed.

(** The exponential in-out curve jumps at the midpoint: the first branch
    tends to [b + c / 2], the second starts at [b - 3 c / 2]. *)
Lemma easeInOutExpo_first_at_1 (b c : R) : easeInOutExpo_first 1 b c = b + c / 2.
Proof.
  unfold easeInOutExpo_first. replace (10 * (1 - 1)) with 0 by ring.
  rewrite Rpower_2_0. field.
Qed.

Lemma easeInOutExpo_at_midpoint (b c d : R) :
  d <> 0 -> easeInOutExpo (d / 2) b c d = b - 3 * c / 2.
Proof.
  intros Hd. unfold easeInOutExpo. cbv zeta.
  rewrite (Reqb_neq (d / 2) 0), (Reqb_neq (d / 2) d) by lra.
  rewrite (div_mid d Hd), (Rltb_ge 1 1) by lra.
  unfold easeInOutExpo_second. cbv zeta.
  replace (-10 * (1 - 1)) with 0 by ring.
  rewrite Rpower_2_0. field.
Qed.

(** Before the midpoint the curve stays above [b] (for [c > 0]), so it
    stays more than [3 c / 2] above its value at the midpoint. *)
Lemma easeInOutExpo_before_midpoint (t b c d : R) :
  0 < d -> 0 < t < d / 2 ->
  easeInOutExpo t b c d = easeInOutExpo_first (t / (d / 2)) b c.
Proof.
  intros Hd [Ht0 Ht1]. unfold easeInOutExpo. cbv zeta.
  rewrite (Reqb_neq t 0), (Reqb_neq t d) by lra.
  assert (Hnorm : t / (d / 2) < 1).
  { apply (Rmult_lt_reg_r (d / 2)); [lra | ].
    replace (t / (d / 2) * (d / 2)) with t by (field; lra). lra. }
  rewrite (Rltb_lt _ _ Hnorm). reflexivity.
Qed.

Lemma easeInOutExpo_jump (t b c d : R) :
  0 < d -> 0 < c -> 0 < t < d / 2 ->
  easeInOutExpo t b c d - easeInOutExpo (d / 2) b c d > 3 * c / 2.
Proof.
  intros Hd Hc Ht.
  rewrite (easeInOutExpo_before_midpoint t b c d Hd Ht).
  rewrite easeInOutExpo_at_midpoint by lra.
  unfold easeInOutExpo_first.
  assert (Hpos : 0 < Rpower 2 (10 * (t / (d / 2) - 1))) by apply exp_pos.
  assert (Hprod : 0 < c * Rpower 2 (10 * (t / (d / 2) - 1)))
    by (apply Rmult_lt_0_compat; assumption).
  lra.
Qed.

(** C2 at the failing input [b = 0], [c = 1], [d = 2]: at the midpoint
    [t = d / 2] the first branch of [easeInOutExpo] gives [1/2] and the curve
    itself [-3/2]; before the midpoint the curve stays more than [3/2] above
    its value at the midpoint. *)
Theorem easeInOutExpo_midpoint_jump :
  easeInOutExpo_first 1 0 1 = 1 / 2
  /\ easeInOutExpo (2 / 2) 0 1 2 = - 3 / 2
  /\ (forall t : R,
        0 < t < 2 / 2 ->
        easeInOutExpo t 0 1 2 - easeInOutExpo (2 / 2) 0 1 2 > 3 / 2).
Proof.
  split; [ | split].
  - rewrite easeInOutExpo_first_at_1. lra.
  - rewrite easeInOutExpo_at_midpoint by lra. lra.
  - intros t Ht.
    pose proof (easeInOutExpo_jump t 0 1 2) as Hjump. lra.
Qed.

(** ** [normalize] *)

Lemma normalize_clamped (a c p s : R) :
  a < Rabs c -> normalize a c p s = Normalized c c p (p / 4).
Proof. intros Hlt. unfold normalize. rewrite Rltb_lt by exact Hlt. reflexivity. Qed.

Lemma normalize_zero (p s : R) :
  normalize 0 0 p s = Normalized 0 0 p (p / twoMathPi * asin 1).
Proof.
  unfold normalize. rewrite Rltb_ge by (rewrite Rabs_R0; lra).
  rewrite Reqb_refl. reflexivity.
Qed.

Lemma normalize_asin (a c p s : R) :
  Rabs c <= a -> ~ (a = 0 /\ c = 0) ->
  normalize a c p s = Normalized a c p (p / twoMathPi * asin (c / a)).
Proof.
  intros Hge Hnz. unfold normalize. rewrite Rltb_ge by exact Hge.
  destruct (Req_dec_T c 0) as [Hc | Hc].
  - rewrite (Reqb_eq c 0 Hc).
    destruct (Req_dec_T a 0) as [Ha | Ha]; [tauto | ].
    rewrite (Reqb_neq a 0 Ha). reflexivity.
  - rewrite (Reqb_neq c 0 Hc). reflexivity.
Qed.

(** C5, as stated, fails: with [a = 0 < |c|] and [c = -1] the amplitude
    returned is [c = -1], not [|c| = 1]. *)
Lemma normalize_counterexample :
  ~ (forall a c p s : R,
       a < Rabs c ->
       Ease.a (normalize a c p s) = Rabs c /\ Ease.s (normalize a c p s) = p / 4).
Proof.
  intros Hall.
  assert (Habs : Rabs (-1) = 1) by (rewrite Rabs_left; lra).
  destruct (Hall 0 (-1) 1 0) as [Hamp _].
  - rewrite Habs. lra.
  - rewrite normalize_clamped in Hamp by (rewrite Habs; lra).
    simpl in Hamp. rewrite Habs in Hamp. lra.
Qed.

(** C5 (amended): if [a < |c|], [normalize(a, c, p, s)] returns the amplitude
    [c] (the signed change, not [|c|]) and the phase shift [p / 4]; otherwise
    it returns the amplitude [a] and the phase shift [p / (2π) · asin(c / a)],
    with [asin(1)] in place of [asin(c / a)] when [a = 0] and [c = 0].  The
    change [c] and the period [p] are returned as they were passed. *)
Theorem normalize_spec (a c p s : R) :
  Ease.c (normalize a c p s) = c /\ Ease.p (normalize a c p s) = p /\
  (a < Rabs c ->
     Ease.a (normalize a c p s) = c /\ Ease.s (normalize a c p s) = p / 4) /\
  (Rabs c <= a ->
     Ease.a (normalize a c p s) = a /\
     (a = 0 /\ c = 0 ->
        Ease.s (normalize a c p s) = p / (2 * PI) * asin 1) /\
     (~ (a = 0 /\ c = 0) ->
        Ease.s (normalize a c p s) = p / (2 * PI) * asin (c / a))).
Proof.
  assert (Htwo : twoMathPi = 2 * PI) by (unfold twoMathPi; ring).
  assert (Hzero : forall p s,
            normalize 0 0 p s = Normalized 0 0 p (p / (2 * PI) * asin 1))
    by (intros; rewrite normalize_zero, Htwo; reflexivity).
  destruct (Rlt_dec a (Rabs c)) as [Hlt | Hge].
  - rewrite (normalize_clamped a c p s Hlt). simpl.
    repeat split; try reflexivity; intros; lra.
  - apply Rnot_lt_le in Hge.
    destruct (Req_dec_T a 0) as [Ha | Ha]; [destruct (Req_dec_T c 0) as [Hc | Hc] | ].
    + subst a c. rewrite Hzero. simpl.
      repeat split; try reflexivity; intros; tauto || lra.
    + rewrite (normalize_asin a c p s Hge) by tauto. rewrite Htwo. simpl.
      repeat split; try reflexivity; intros; tauto || lra.
    + rewrite (normalize_asin a c p s Hge) by tauto. rewrite Htwo. simpl.
      repeat split; try reflexivity; intros; tauto || lra.
Qed.

(** The three cases of [normalize_spec] at concrete arguments. *)
Lemma normalize_spec_witness :
  (Ease.a (normalize 1 (-2) 3 0) = -2 /\ Ease.s (normalize 1 (-2) 3 0) = 3 / 4)
  /\ Ease.s (normalize 0 0 3 0) = 3 / (2 * PI) * asin 1
  /\ Ease.s (normalize 2 1 3 0) = 3 / (2 * PI) * asin (1 / 2).
Proof.
  assert (Habs2 : Rabs (-2) = 2) by (rewrite Rabs_left; lra).
  assert (Habs1 : Rabs 1 = 1) by apply Rabs_R1.
  split; [ | split].
  - destruct (normalize_spec 1 (-2) 3 0) as (_ & _ & Hclamped & _).
    apply Hclamped. rewrite Habs2. lra.
  - destruct (normalize_spec 0 0 3 0) as (_ & _ & _ & Hother).
    destruct Hother as (_ & Hzero & _).
    + rewrite Rabs_R0. lra.
    + apply Hzero. split; reflexivity.
  - destruct (normalize_spec 2 1 3 0) as (_ & _ & _ & Hother).
    destruct Hother as (_ & _ & Hasin).
    + rewrite Habs1. lra.
    + apply Hasin. intros [H2 _]. lra.
Defined.

(** ** [easeOutBounce] on its four segments *)

Lemma div_le_pos (t1 t2 d : R) : 0 < d -> t1 <= t2 -> t1 / d <= t2 / d.
Proof.
  intros Hd Hle. unfold Rdiv. apply Rmult_le_compat_r; [ | exact Hle].
  left. apply Rinv_0_lt_compat, Hd.
Qed.

(** The value on each segment, as a function of the normalized time [t / d]. *)
Lemma easeOutBounce_segment1 (t b c d : R) :
  d <> 0 -> t / d < 1 / 2.75 ->
  easeOutBounce t b c d = c * (7.5625 * (t / d) * (t / d)) + b.
Proof.
  intros _ H1. unfold easeOutBounce. cbv zeta. rewrite Rltb_lt by lra. reflexivity.
Qed.

Lemma easeOutBounce_segment2 (t b c d : R) :
  d <> 0 -> 1 / 2.75 <= t / d -> t / d < 2 / 2.75 ->
  easeOutBounce t b c d
  = c * (7.5625 * (t / d - 1.5 / 2.75) * (t / d - 1.5 / 2.75) + 0.75) + b.
Proof.
  intros _ H1 H2. unfold easeOutBounce. cbv zeta.
  rewrite Rltb_ge, Rltb_lt by lra. reflexivity.
Qed.

Lemma easeOutBounce_segment3 (t b c d : R) :
  d <> 0 -> 2 / 2.75 <= t / d -> t / d < 2.5 / 2.75 ->
  easeOutBounce t b c d
  = c * (7.5625 * (t / d - 2.25 / 2.75) * (t / d - 2.25 / 2.75) + 0.9375) + b.
Proof.
  intros _ H1 H2. unfold easeOutBounce. cbv zeta.
  rewrite Rltb_ge, Rltb_ge, Rltb_lt by lra. reflexivity.
Qed.

Lemma easeOutBounce_segment4 (t b c d : R) :
  d <> 0 -> 2.5 / 2.75 <= t / d ->
  easeOutBounce t b c d
  = c * (7.5625 * (t / d - 2.625 / 2.75) * (t / d - 2.625 / 2.75) + 0.984375) + b.
Proof.
  intros _ H1. unfold easeOutBounce. cbv zeta.
  rewrite Rltb_ge, Rltb_ge, Rltb_ge by lra. reflexivity.
Qed.

(** Each later segment starts at the height [c + b] the previous one
    reaches, and falls to [0.75 c + b], [0.9375 c + b], [0.984375 c + b] at
    its vertex. *)
Lemma easeOutBounce_thresholds (b c d : R) :
  d <> 0 ->
  c * (7.5625 * (1 / 2.75) * (1 / 2.75)) + b = c + b
  /\ easeOutBounce (1 / 2.75 * d) b c d = c + b
  /\ easeOutBounce (2 / 2.75 * d) b c d = c + b
  /\ easeOutBounce (2.5 / 2.75 * d) b c d = c + b
  /\ easeOutBounce (1.5 / 2.75 * d) b c d = 0.75 * c + b
  /\ easeOutBounce (2.25 / 2.75 * d) b c d = 0.9375 * c + b
  /\ easeOutBounce (2.625 / 2.75 * d) b c d = 0.984375 * c + b.
Proof.
  intros Hd.
  assert (Hnorm : forall k : R, k * d / d = k) by (intros k; field; exact Hd).
  split; [lra | ].
  split; [rewrite easeOutBounce_segment2 by (rewrite ?Hnorm; lra || exact Hd) | ].
  { rewrite Hnorm. lra. }
  split; [rewrite easeOutBounce_segment3 by (rewrite ?Hnorm; lra || exact Hd) | ].
  { rewrite Hnorm. lra. }
  split; [rewrite easeOutBounce_segment4 by (rewrite ?Hnorm; lra || exact Hd) | ].
  { rewrite Hnorm. lra. }
  split; [rewrite easeOutBounce_segment2 by (rewrite ?Hnorm; lra || exact Hd) | ].
  { rewrite Hnorm. lra. }
  split; [rewrite easeOutBounce_segment3 by (rewrite ?Hnorm; lra || exact Hd) | ].
  { rewrite Hnorm. lra. }
  rewrite easeOutBounce_segment4 by (rewrite ?Hnorm; lra || exact Hd).
  rewrite Hnorm. lra.
Qed.

(** A parabola [c (k (u - v)² + m) + b] with [c > 0], [k > 0] rises to the
    right of its vertex [v] and falls to its left. *)
Lemma parabola_rises (b c k m v u1 u2 : R) :
  0 < c -> 0 < k -> v <= u1 -> u1 <= u2 ->
  c * (k * (u1 - v) * (u1 - v) + m) + b <= c * (k * (u2 - v) * (u2 - v) + m) + b.
Proof.
  intros Hc Hk Hv Hle.
  assert (Hsq : (u1 - v) * (u1 - v) <= (u2 - v) * (u2 - v)) by nra.
  assert (Hk' : k * (u1 - v) * (u1 - v) <= k * (u2 - v) * (u2 - v)) by nra.
  nra.
Qed.

Lemma parabola_falls (b c k m v u1 u2 : R) :
  0 < c -> 0 < k -> u1 <= u2 -> u2 <= v ->
  c * (k * (u2 - v) * (u2 - v) + m) + b <= c * (k * (u1 - v) * (u1 - v) + m) + b.
Proof.
  intros Hc Hk Hle Hv.
  assert (Hsq : (u2 - v) * (u2 - v) <= (u1 - v) * (u1 - v)) by nra.
  assert (Hk' : k * (u2 - v) * (u2 - v) <= k * (u1 - v) * (u1 - v)) by nra.
  nra.
Qed.

(** C6, as stated, fails on the second segment: with [d = 2.75] and [c = 1]
    the times [1] and [1.5] both fall in it ([t / d] in [[1/2.75, 2/2.75)])
    and the value drops from [1] to [0.75]. *)
Lemma easeOutBounce_counterexample :
  ~ (forall b c d t1 t2 : R,
       0 < d -> 0 < c -> t1 <= t2 ->
       1 / 2.75 <= t1 / d -> t2 / d < 2 / 2.75 ->
       easeOutBounce t1 b c d <= easeOutBounce t2 b c d).
Proof.
  intros Hall.
  assert (Hmono := Hall 0 1 2.75 1 1.5).
  rewrite (easeOutBounce_segment2 1), (easeOutBounce_segment2 1.5) in Hmono by lra.
  assert (H1 : 1 / 2.75 - 1.5 / 2.75 = - (2 / 11)) by lra.
  assert (H2 : 1.5 / 2.75 - 1.5 / 2.75 = 0) by lra.
  rewrite H1, H2 in Hmono. lra.
Qed.

(** C6 (amended): for [d > 0] and [c > 0], [easeOutBounce] is non-decreasing
    in [t] on the first segment and, on each of the three later segments,
    from the segment's vertex ([t / d] = [1.5/2.75], [2.25/2.75],
    [2.625/2.75]) to its end; from the start of a later segment to its vertex
    it is non-increasing; and [easeOutBounce(d, b, c, d) = c + b]. *)
Theorem easeOutBounce_segments (b c d : R) :
  0 < d -> 0 < c ->
  (forall t1 t2 : R,
     t1 <= t2 ->
     (0 <= t1 / d /\ t2 / d < 1 / 2.75)
     \/ (1.5 / 2.75 <= t1 / d /\ t2 / d < 2 / 2.75)
     \/ (2.25 / 2.75 <= t1 / d /\ t2 / d < 2.5 / 2.75)
     \/ (2.625 / 2.75 <= t1 / d /\ t2 / d <= 1) ->
     easeOutBounce t1 b c d <= easeOutBounce t2 b c d)
  /\ (forall t1 t2 : R,
        t1 <= t2 ->
        (1 / 2.75 <= t1 / d /\ t2 / d <= 1.5 / 2.75)
        \/ (2 / 2.75 <= t1 / d /\ t2 / d <= 2.25 / 2.75)
        \/ (2.5 / 2.75 <= t1 / d /\ t2 / d <= 2.625 / 2.75) ->
        easeOutBounce t2 b c d <= easeOutBounce t1 b c d)
  /\ easeOutBounce d b c d = c + b.
Proof.
  intros Hd Hc. split; [ | split].
  - intros t1 t2 Hle Hseg. pose proof (div_le_pos t1 t2 d Hd Hle) as Hu.
    destruct Hseg as [[H1 H2] | [[H1 H2] | [[H1 H2] | [H1 H2]]]].
    + rewrite !easeOutBounce_segment1 by lra.
      pose proof (parabola_rises b c 7.5625 0 0 (t1 / d) (t2 / d)) as Hp.
      rewrite !Rminus_0_r, !Rplus_0_r in Hp. apply Hp; lra.
    + rewrite !easeOutBounce_segment2 by lra. apply parabola_rises; lra.
    + rewrite !easeOutBounce_segment3 by lra. apply parabola_rises; lra.
    + rewrite !easeOutBounce_segment4 by lra. apply parabola_rises; lra.
  - intros t1 t2 Hle Hseg. pose proof (div_le_pos t1 t2 d Hd Hle) as Hu.
    destruct Hseg as [[H1 H2] | [[H1 H2] | [H1 H2]]].
    + rewrite !easeOutBounce_segment2 by lra. apply parabola_falls; lra.
    + rewrite !easeOutBounce_segment3 by lra. apply parabola_falls; lra.
    + rewrite !easeOutBounce_segment4 by lra. apply parabola_falls; lra.
  - apply easeOutBounce_finish. lra.
Qed.

Lemma easeOutBounce_segments_witness :
  easeOutBounce 1.5 0 1 2.75 <= easeOutBounce 1.75 0 1 2.75
  /\ easeOutBounce 1.5 0 1 2.75 <= easeOutBounce 1 0 1 2.75
  /\ easeOutBounce 2.75 0 1 2.75 = 1 + 0.
Proof.
  destruct (easeOutBounce_segments 0 1 2.75) as (Hrise & Hfall & Hend); [lra | lra | ].
  split; [ | split].
  - apply Hrise; [lra | ]. right. left. lra.
  - apply Hfall; [lra | ]. left. lra.
  - exact Hend.
Defined.

(** ** The explicit end-point tests of the exponential curves *)

(** Without its test, the formula of [easeInExpo] would give
    [b + c * 2 ** -10] at [t = 0]. *)
Lemma easeInExpo_formula_at_0 (b c d : R) :
  d <> 0 -> c * Rpower 2 (10 * (0 / d - 1)) + b = b + c / 1024.
Proof.
  intros _. rewrite div_0_l. replace (10 * (0 - 1)) with (- INR 10) by (simpl; ring).
  rewrite Rpower_Ropp, Rpower_pow by lra. simpl. field.
Qed.

(** C7, as stated, fails for the duration [d = 0]: there [t = d] is [t = 0],
    the first test of [easeInOutExpo] returns [b], and [b + c] is not
    returned. *)
Lemma easeInOutExpo_counterexample :
  ~ (forall b c d : R, easeInOutExpo d b c d = b + c).
Proof.
  intros Hall. specialize (Hall 0 1 0).
  rewrite easeInOutExpo_start in Hall. lra.
Qed.

(** C7 (amended): [easeInExpo] returns [b] at [t = 0] and [easeOutExpo]
    returns [b + c] at [t = d], for every [b], [c], [d], by their tests on
    [t]; [easeInOutExpo] returns [b] at [t = 0] for every [d], and [b + c] at
    [t = d] when [d <> 0]. *)
Theorem expo_endpoints (b c d : R) :
  easeInExpo 0 b c d = b
  /\ easeOutExpo d b c d = b + c
  /\ easeInOutExpo 0 b c d = b
  /\ (d <> 0 -> easeInOutExpo d b c d = b + c).
Proof.
  split; [apply easeInExpo_start | ].
  split; [apply easeOutExpo_finish | ].
  split; [apply easeInOutExpo_start | ].
  apply easeInOutExpo_finish.
Qed.

Lemma expo_endpoints_witness :
  easeInExpo 0 3 4 2 = 3 /\ easeOutExpo 2 3 4 2 = 3 + 4
  /\ easeInOutExpo 0 3 4 2 = 3 /\ easeInOutExpo 2 3 4 2 = 3 + 4.
Proof.
  destruct (expo_endpoints 3 4 2) as (Hin & Hout & Hstart & Hfinish).
  repeat split; [exact Hin | exact Hout | exact Hstart | apply Hfinish; lra].
Defined.

(** ** The explicit end-point tests of the elastic curves *)

Lemma Rpower_2_m10 : Rpower 2 (-10) = / 1024.
Proof.
  replace (-10) with (- INR 10) by (simpl; ring).
  rewrite Rpower_Ropp, Rpower_pow by lra. simpl. f_equal. ring.
Qed.

Lemma INR_3 : INR 3 = 3.
Proof. simpl. ring. Qed.

Lemma three_tenths : 0.3 = 3 / 10.
Proof. lra. Qed.

(** Without the tests the waveforms would miss the end points by [c / 2048]:
    [easeInElastic] at [t = 0] and [easeOutElastic] at [t = d]. *)
Lemma easeInElastic_waveform_at_0 (b c d : R) :
  d <> 0 ->
  let n := normalize c c (d * 0.3) 1.70158 in
  - elastic (Ease.a n) (Ease.s n) (Ease.p n) (0 / d) d + b = b - c / 2048.
Proof.
  intros Hd n. subst n. rewrite normalize_amplitude_is_change. simpl.
  unfold elastic. cbv zeta. rewrite div_0_l.
  replace (10 * (0 - 1)) with (-10) by ring.
  replace (((0 - 1) * d - d * 0.3 / 4) * twoMathPi / (d * 0.3))
    with (- (PI / 6 + PI + 2 * INR 3 * PI))
    by (unfold twoMathPi; rewrite INR_3, three_tenths; field; lra).
  rewrite sin_neg, sin_period, neg_sin, sin_PI6, Rpower_2_m10. field.
Qed.

Lemma easeOutElastic_waveform_at_d (b c d : R) :
  d <> 0 ->
  let n := normalize c c (d * 0.3) 1.70158 in
  Ease.a n * Rpower 2 (-10 * (d / d))
    * sin ((d / d * d - Ease.s n) * twoMathPi / Ease.p n)
    + Ease.c n + b
  = b + c + c / 2048.
Proof.
  intros Hd n. subst n. rewrite normalize_amplitude_is_change. simpl.
  rewrite (div_same d Hd).
  replace (-10 * 1) with (-10) by ring.
  replace ((1 * d - d * 0.3 / 4) * twoMathPi / (d * 0.3))
    with (PI / 6 + 2 * INR 3 * PI)
    by (unfold twoMathPi; rewrite INR_3, three_tenths; field; lra).
  rewrite sin_period, sin_PI6, Rpower_2_m10. field.
Qed.

(** C10: for [d <> 0], [easeInElastic] and [easeOutElastic] return [b] at
    [t = 0] and [b + c] at [t = d]; the tests [t === 0] and, on the
    normalized time, [t === 1] return these before [normalize] and the
    waveform are evaluated. *)
Theorem elastic_endpoints (b c d : R) :
  d <> 0 ->
  easeInElastic 0 b c d = b /\ easeInElastic d b c d = b + c
  /\ easeOutElastic 0 b c d = b /\ easeOutElastic d b c d = b + c.
Proof.
  intros Hd.
  split; [apply easeInElastic_start | ].
  split; [apply easeInElastic_finish, Hd | ].
  split; [apply easeOutElastic_start | apply easeOutElastic_finish, Hd].
Qed.

Lemma elastic_endpoints_witness :
  easeInElastic 0 3 4 2 = 3 /\ easeInElastic 2 3 4 2 = 3 + 4
  /\ easeOutElastic 0 3 4 2 = 3 /\ easeOutElastic 2 3 4 2 = 3 + 4.
Proof. apply (elastic_endpoints 3 4 2). lra. Defined.

End EaseFacts.

(** * Properties of the object transforms *)

Module ObjectTransformsFacts.

Import ObjectTransforms.

(** ** Matrices *)


(** ** The reference implementation meets the contracts *)

Lemma reference_set_assigns : @set_assigns reference.
Proof. intros o sx sy. reflexivity. Qed.

Lemma reference_rotate_assigns : @rotate_assigns reference.
Proof. intros o a. reflexivity. Qed.

Lemma reference_setPositionByOrigin_repositions :
  @setPositionByOrigin_repositions reference.
Proof.
  intros o [px py]. simpl. repeat split; reflexivity.
Qed.

Lemma reference_qrDecompose_no_flip : @qrDecompose_no_flip reference.
Proof. intros t. split; reflexivity. Qed.

Lemma reference_compose_decompose : @compose_decompose reference.
Proof.
  intros [t0 t1 t2 t3 t4 t5].
  unfold composeArgs, composeMatrix, qrDecompose, reference,
    multiplyTransformMatrices, rotation, translation, sign. simpl.
  replace (0 * PI / 180) with 0 by (unfold Rdiv; ring).
  rewrite cos_0, sin_0. f_equal; ring.
Qed.

Lemma reference_calcOwnMatrix_composes : @calcOwnMatrix_composes reference.
Proof. intros o. reflexivity. Qed.

Section Contracts.

Context `{External}.

(** ** [applyTransformToObject] *)

(** The object before the final repositioning: the flips reset, the
    decomposed fields assigned. *)
Lemma applyTransformToObject_unfold (object : FabricObject) (transform : TMat2D) :
  let q := qrDecompose transform in
  applyTransformToObject object transform
  = setPositionByOrigin
      (set (assign_otherOptions (set_flipY false (set_flipX false object)) q)
           (Qr.scaleX q) (Qr.scaleY q))
      (mkPoint (Qr.translateX q) (Qr.translateY q)) "center" "center".
Proof. reflexivity. Qed.

(** The fields after [Object.assign(object, otherOptions)]: a flip the
    decomposition gives replaces the object's. *)
Lemma assign_otherOptions_fields (object : FabricObject) (q : Qr.t) :
  let o' := assign_otherOptions object q in
  angle o' = Qr.angle q /\ skewX o' = Qr.skewX q /\ skewY o' = Qr.skewY q
  /\ flipX o' = default (flipX object) (Qr.flipX q)
  /\ flipY o' = default (flipY object) (Qr.flipY q)
  /\ scaleX o' = scaleX object /\ scaleY o' = scaleY object
  /\ left o' = left object /\ top o' = top object.
Proof.
  unfold assign_otherOptions. cbv zeta.
  destruct (Qr.flipX q), (Qr.flipY q); simpl; repeat split; reflexivity.
Qed.

(** The transform fields after [applyTransformToObject], whatever the
    decomposition says about flips: one it gives takes precedence over the
    reset to [false]. *)
Lemma applyTransformToObject_fields (object : FabricObject) (transform : TMat2D) :
  set_assigns -> setPositionByOrigin_repositions ->
  let q := qrDecompose transform in
  let o' := applyTransformToObject object transform in
  flipX o' = default false (Qr.flipX q) /\ flipY o' = default false (Qr.flipY q)
  /\ angle o' = Qr.angle q
  /\ skewX o' = Qr.skewX q /\ skewY o' = Qr.skewY q
  /\ scaleX o' = Qr.scaleX q /\ scaleY o' = Qr.scaleY q
  /\ getCenterPoint o' = mkPoint (Qr.translateX q) (Qr.translateY q).
Proof.
  intros Hset Hpos q o'. subst o'. rewrite applyTransformToObject_unfold.
  fold q.
  destruct (Hpos (set (assign_otherOptions (set_flipY false (set_flipX false object)) q)
                      (Qr.scaleX q) (Qr.scaleY q))
                 (mkPoint (Qr.translateX q) (Qr.translateY q)))
    as (Hsx & Hsy & Hkx & Hky & Han & Hfx & Hfy & Hcenter).
  rewrite Hsx, Hsy, Hkx, Hky, Han, Hfx, Hfy, Hcenter.
  rewrite Hset.
  destruct (assign_otherOptions_fields (set_flipY false (set_flipX false object)) q)
    as (Ha & Hx & Hy & Hflx & Hfly & _).
  simpl. rewrite Ha, Hx, Hy, Hflx, Hfly. simpl.
  repeat split; reflexivity.
Qed.

(** For an object whose [set] assigns the two scales and whose
    [setPositionByOrigin] writes the position only, and a decomposition that
    yields no flip components: the fields after
    [applyTransformToObject(object, transform)]. *)
Lemma applyTransformToObject_under_contracts
    (object : FabricObject) (transform : TMat2D) :
  set_assigns -> setPositionByOrigin_repositions -> qrDecompose_no_flip ->
  let q := qrDecompose transform in
  let o' := applyTransformToObject object transform in
  flipX o' = false /\ flipY o' = false
  /\ angle o' = Qr.angle q
  /\ skewX o' = Qr.skewX q /\ skewY o' = Qr.skewY q
  /\ scaleX o' = Qr.scaleX q /\ scaleY o' = Qr.scaleY q
  /\ getCenterPoint o' = mkPoint (Qr.translateX q) (Qr.translateY q)
  /\ exists o'' : FabricObject,
       o' = setPositionByOrigin o''
              (mkPoint (Qr.translateX q) (Qr.translateY q)) "center" "center".
Proof.
  intros Hset Hpos Hflip q o'.
  destruct (applyTransformToObject_fields object transform Hset Hpos)
    as (Hfx & Hfy & Hrest).
  destruct (Hflip transform) as [Hnx Hny].
  fold q in Hnx, Hny. fold q o' in Hfx, Hfy, Hrest.
  rewrite Hnx in Hfx. rewrite Hny in Hfy. simpl in Hfx, Hfy.
  split; [exact Hfx | ]. split; [exact Hfy | ].
  destruct Hrest as (Ha & Hkx & Hky & Hsx & Hsy & Hc).
  repeat (split; [assumption | ]).
  eexists. subst o'. apply applyTransformToObject_unfold.
Qed.

(** C4 (amended): for every object and every transform matrix,
    [applyTransformToObject(object, transform)] sets [flipX] and [flipY] to
    false and assigns the decomposed [angle], [skewX] and [skewY] (the
    decomposition yielding no flip components, the flags are still false
    then), leaving [scaleX], [scaleY], [left] and [top] as they were; it then
    hands the decomposed [scaleX], [scaleY] to the object's own [set], and
    the decomposed point [(translateX, translateY)] with the anchors
    ['center', 'center'] to the object's own [setPositionByOrigin].  For an
    object whose [set] only assigns the two scales and whose
    [setPositionByOrigin] only writes the position and makes the point the
    centre, [flipX] and [flipY] are false afterwards, [angle], [skewX],
    [skewY], [scaleX], [scaleY] are those of the decomposition and the
    centre is the decomposed point. *)
Theorem applyTransformToObject_steps (object : FabricObject) (transform : TMat2D) :
  let q := qrDecompose transform in
  let o' := applyTransformToObject object transform in
  (exists o1 : FabricObject,
     o' = setPositionByOrigin (set o1 (Qr.scaleX q) (Qr.scaleY q))
            (mkPoint (Qr.translateX q) (Qr.translateY q)) "center" "center"
     /\ (qrDecompose_no_flip -> flipX o1 = false /\ flipY o1 = false)
     /\ angle o1 = Qr.angle q
     /\ skewX o1 = Qr.skewX q /\ skewY o1 = Qr.skewY q
     /\ scaleX o1 = scaleX object /\ scaleY o1 = scaleY object
     /\ left o1 = left object /\ top o1 = top object)
  /\ (set_assigns -> setPositionByOrigin_repositions -> qrDecompose_no_flip ->
      flipX o' = false /\ flipY o' = false
      /\ angle o' = Qr.angle q
      /\ skewX o' = Qr.skewX q /\ skewY o' = Qr.skewY q
      /\ scaleX o' = Qr.scaleX q /\ scaleY o' = Qr.scaleY q
      /\ getCenterPoint o' = mkPoint (Qr.translateX q) (Qr.translateY q)).
Proof.
  intros q o'. split.
  - exists (assign_otherOptions (set_flipY false (set_flipX false object)) q).
    destruct (assign_otherOptions_fields (set_flipY false (set_flipX false object)) q)
      as (Ha & Hkx & Hky & Hfx & Hfy & Hsx & Hsy & Hl & Ht).
    split; [subst o'; apply applyTransformToObject_unfold | ].
    split.
    { intros Hflip. destruct (Hflip transform) as [Hnx Hny]. fold q in Hnx, Hny.
      rewrite Hfx, Hfy, Hnx, Hny. split; reflexivity. }
    repeat (split; [assumption | ]). exact Ht.
  - intros Hset Hpos Hflip.
    destruct (applyTransformToObject_under_contracts object transform Hset Hpos Hflip)
      as (Hfx & Hfy & Ha & Hkx & Hky & Hsx & Hsy & Hc & _).
    repeat split; assumption.
Qed.

(** ** Removing and adding a transform *)

(** The own matrix after [applyTransformToObject] is the applied matrix. *)
Lemma calcOwnMatrix_applyTransformToObject (object : FabricObject) (transform : TMat2D) :
  set_assigns -> setPositionByOrigin_repositions ->
  compose_decompose -> calcOwnMatrix_composes ->
  calcOwnMatrix (applyTransformToObject object transform) = transform.
Proof.
  intros Hset Hpos Hinv Hown.
  destruct (applyTransformToObject_fields object transform Hset Hpos)
    as (Hfx & Hfy & Ha & Hkx & Hky & Hsx & Hsy & Hc).
  rewrite Hown. unfold ownArgs.
  rewrite Hfx, Hfy, Ha, Hkx, Hky, Hsx, Hsy, Hc. simpl.
  apply Hinv.
Qed.


(** ** [resetObjectTransform] *)

(** For an object whose [rotate] assigns the angle: the fields after
    [resetObjectTransform(target)]. *)
Lemma resetObjectTransform_under_rotate_assigns (target : FabricObject) :
  rotate_assigns ->
  let target' := resetObjectTransform target in
  left target' = left target /\ top target' = top target
  /\ scaleX target' = 1 /\ scaleY target' = 1
  /\ skewX target' = 0 /\ skewY target' = 0
  /\ flipX target' = false /\ flipY target' = false
  /\ angle target' = 0
  /\ exists o : FabricObject, target' = rotate o 0.
Proof.
  intros Hrot target'. subst target'. unfold resetObjectTransform. cbv zeta.
  rewrite Hrot. simpl. repeat split; try reflexivity.
  eexists. symmetry. apply Hrot.
Qed.

(** C8 (amended): for every target object, [resetObjectTransform(target)]
    sets [scaleX = scaleY = 1], [skewX = skewY = 0], [flipX = flipY = false],
    leaving [left], [top] and the angle as they are, and then calls the
    object's own [rotate(0)]: what it returns is what [rotate(0)] makes of
    that object, so [left] and [top] are changed by [rotate] or not at all.
    For an object whose [rotate] only assigns the angle, [left] and [top]
    are unchanged, the six fields have the values above and the angle is
    [0]. *)
Theorem resetObjectTransform_resets_then_rotates (target : FabricObject) :
  let target' := resetObjectTransform target in
  target'
  = rotate (mkObject 1 1 0 0 (angle target) false false (left target) (top target)) 0
  /\ (rotate_assigns ->
      left target' = left target /\ top target' = top target
      /\ scaleX target' = 1 /\ scaleY target' = 1
      /\ skewX target' = 0 /\ skewY target' = 0
      /\ flipX target' = false /\ flipY target' = false
      /\ angle target' = 0).
Proof.
  intros target'. split.
  - reflexivity.
  - intros Hrot.
    destruct (resetObjectTransform_under_rotate_assigns target Hrot)
      as (Hl & Ht & Hsx & Hsy & Hkx & Hky & Hfx & Hfy & Ha & _).
    repeat split; assumption.
Qed.

End Contracts.

(** The contracts hold of [reference]: a flipped, rotated object and the
    matrix that scales by [2] and translates by [(5, 7)]. *)
Lemma applyTransformToObject_steps_witness :
  let o' := @applyTransformToObject reference
              (mkObject 3 4 0 0 45 true true 10 20) (Mat2D 2 0 0 2 5 7) in
  flipX o' = false /\ flipY o' = false
  /\ scaleX o' = 2 /\ scaleY o' = 2
  /\ @getCenterPoint reference o' = mkPoint 5 7.
Proof.
  destruct (@applyTransformToObject_steps reference
              (mkObject 3 4 0 0 45 true true 10 20) (Mat2D 2 0 0 2 5 7))
    as [_ Hcontracts].
  destruct (Hcontracts reference_set_assigns
              reference_setPositionByOrigin_repositions
              reference_qrDecompose_no_flip)
    as (Hfx & Hfy & _ & _ & _ & Hsx & Hsy & Hc).
  repeat split; assumption.
Defined.

(** C4, as stated, fails for an object whose [set] turns a negative scale
    into a flip: the matrix [[2, 0, 0, -2, 5, 7]] mirrors the y axis, its
    decomposition has [scaleY = -2] and no flip component, and after
    [applyTransformToObject] the object has [flipY = true] and
    [scaleY = 2]. *)
Lemma applyTransformToObject_counterexample :
  ~ (forall (E : External) (object : FabricObject) (transform : TMat2D),
       @qrDecompose_no_flip E ->
       flipY (@applyTransformToObject E object transform) = false
       /\ scaleY (@applyTransformToObject E object transform)
          = Qr.scaleY (@qrDecompose E transform)).
Proof.
  intros Hall.
  destruct (Hall OtherObjects.scale_flipping
              (mkObject 3 4 0 0 45 false false 10 20) (Mat2D 2 0 0 (-2) 5 7))
    as [Hflip _].
  - intros t. split; reflexivity.
  - unfold applyTransformToObject in Hflip.
    cbn [qrDecompose set setPositionByOrigin OtherObjects.scale_flipping reference]
      in Hflip.
    unfold OtherObjects.set_flipping in Hflip.
    cbn [Qr.scaleX Qr.scaleY m0 m3] in Hflip.
    rewrite (EaseFacts.Rltb_ge 2 0), (EaseFacts.Rltb_lt (-2) 0) in Hflip by lra.
    simpl in Hflip. discriminate Hflip.
Qed.


Lemma resetObjectTransform_resets_then_rotates_witness :
  let target' := @resetObjectTransform reference
                   (mkObject 3 4 5 6 45 true true 10 20) in
  left target' = 10 /\ top target' = 20
  /\ scaleX target' = 1 /\ scaleY target' = 1
  /\ skewX target' = 0 /\ skewY target' = 0
  /\ flipX target' = false /\ flipY target' = false
  /\ angle target' = 0.
Proof.
  destruct (@resetObjectTransform_resets_then_rotates reference
              (mkObject 3 4 5 6 45 true true 10 20))
    as [_ Hassigns].
  exact (Hassigns reference_rotate_assigns).
Defined.

(** The object of [corner_anchored] at the corner [(10, 20)], turned by 90
    degrees, has its centre at [(9, 21)]; turned back to [0] about that
    centre, its corner is at [(8, 20)]. *)
Lemma corner_anchored_reset :
  left (@resetObjectTransform OtherObjects.corner_anchored
          (mkObject 1 1 0 0 90 false false 10 20)) = 8.
Proof.
  unfold resetObjectTransform.
  cbn [rotate OtherObjects.corner_anchored].
  unfold OtherObjects.rotate_about_centre, OtherObjects.place_centre,
    OtherObjects.centre, OtherObjects.half_diagonal.
  simpl.
  replace (90 * PI / 180) with (PI / 2) by field.
  replace (0 * PI / 180) with 0 by (unfold Rdiv; ring).
  rewrite cos_PI2, sin_PI2, cos_0, sin_0. ring.
Qed.

(** C8, as stated, fails for an object that is positioned by a corner and
    whose [rotate] turns it about its centre: [resetObjectTransform] moves
    its [left] from [10] to [8]. *)
Lemma resetObjectTransform_counterexample :
  ~ (forall (E : External) (target : FabricObject),
       left (@resetObjectTransform E target) = left target
       /\ top (@resetObjectTransform E target) = top target).
Proof.
  intros Hall.
  destruct (Hall OtherObjects.corner_anchored (mkObject 1 1 0 0 90 false false 10 20))
    as [Hleft _].
  rewrite corner_anchored_reset in Hleft. simpl in Hleft. lra.
Qed.

(** ** [saveObjectTransform] *)

(** The returned record copies the nine fields. *)
Lemma saveObjectTransform_fields (target : FabricObject) :
  let r := saveObjectTransform target in
  Saved.scaleX r = scaleX target /\ Saved.scaleY r = scaleY target
  /\ Saved.skewX r = skewX target /\ Saved.skewY r = skewY target
  /\ Saved.angle r = angle target
  /\ Saved.left r = left target
  /\ Saved.flipX r = flipX target /\ Saved.flipY r = flipY target
  /\ Saved.top r = top target.
Proof. simpl. repeat split; reflexivity. Qed.

(** C9: a call of [saveObjectTransform] on a target object returns a record
    in a new cell whose nine fields are those of the target at the call; the
    store is otherwise as before, so the target is not mutated; and an
    assignment to the target afterwards leaves the record as it was. *)
Theorem saveObjectTransform_snapshot
    (h : gmap loc cell) (target : loc) (o : FabricObject) :
  h !! target = Some (CObject o) ->
  exists (h' : gmap loc cell) (r : loc) (s : Saved.t),
    call_saveObjectTransform h target = Some (h', r)
    /\ h !! r = None
    /\ h' !! r = Some (CSaved s)
    /\ (Saved.scaleX s = scaleX o /\ Saved.scaleY s = scaleY o
        /\ Saved.skewX s = skewX o /\ Saved.skewY s = skewY o
        /\ Saved.angle s = angle o
        /\ Saved.left s = left o
        /\ Saved.flipX s = flipX o /\ Saved.flipY s = flipY o
        /\ Saved.top s = top o)
    /\ h' !! target = Some (CObject o)
    /\ (forall l : loc, l <> r -> h' !! l = h !! l)
    /\ (forall o' : FabricObject,
          mutate h' target o' !! r = Some (CSaved s)
          /\ mutate h' target o' !! target = Some (CObject o')).
Proof.
  intros Htarget.
  set (r := fresh (dom h)).
  assert (Hfresh : h !! r = None).
  { apply (not_elem_of_dom (D := gset loc)). apply is_fresh. }
  assert (Hne : target <> r).
  { intros Heq. rewrite Heq, Hfresh in Htarget. discriminate Htarget. }
  exists (<[r := CSaved (saveObjectTransform o)]> h), r, (saveObjectTransform o).
  split; [ | split; [exact Hfresh | split; [ | split; [ | split; [ | split]]]]].
  - unfold call_saveObjectTransform. rewrite Htarget. reflexivity.
  - apply lookup_insert_eq.
  - apply saveObjectTransform_fields.
  - rewrite lookup_insert_ne by (intros Heq; apply Hne; symmetry; exact Heq).
    exact Htarget.
  - intros l Hl. apply lookup_insert_ne. intros Heq. apply Hl. symmetry. exact Heq.
  - intros o'. unfold mutate. split.
    + rewrite lookup_insert_ne by exact Hne. apply lookup_insert_eq.
    + apply lookup_insert_eq.
Qed.

(** A store with one object at location [1]: the record is allocated at a
    new location and survives a reset of the object. *)
Lemma saveObjectTransform_snapshot_witness :
  exists (h' : gmap loc cell) (r : loc) (s : Saved.t),
    call_saveObjectTransform
      {[ 1%positive := CObject (mkObject 3 4 5 6 45 true false 10 20) ]} 1%positive
    = Some (h', r)
    /\ r <> 1%positive
    /\ Saved.scaleX s = 3 /\ Saved.left s = 10 /\ Saved.flipX s = true
    /\ mutate h' 1%positive (@resetObjectTransform reference
                               (mkObject 3 4 5 6 45 true false 10 20)) !! r
       = Some (CSaved s).
Proof.
  destruct (saveObjectTransform_snapshot
              {[ 1%positive := CObject (mkObject 3 4 5 6 45 true false 10 20) ]}
              1%positive (mkObject 3 4 5 6 45 true false 10 20))
    as (h' & r & s & Hcall & Hnew & _ & Hfields & _ & _ & Hlater).
  - apply lookup_singleton_eq.
  - exists h', r, s.
    destruct Hfields as (Hsx & _ & _ & _ & _ & Hl & Hfx & _).
    split; [exact Hcall | ].
    split.
    + intros ->. rewrite lookup_singleton_eq in Hnew. discriminate Hnew.
    + split; [exact Hsx | ]. split; [exact Hl | ]. split; [exact Hfx | ].
      apply Hlater.
Defined.

End ObjectTransformsFacts.

(** * Further properties of the easing curves *)

Module EaseShapeFacts.

Import Constants Ease EaseFacts.

(** ** Every curve is the start value plus the change times a shape *)

(** Splits on every comparison left in the goal. *)
Ltac split_tests :=
  repeat match goal with
         | |- context [Reqb ?x ?y] => destruct (Reqb x y)
         | |- context [Rltb ?x ?y] => destruct (Rltb x y)
         end.

(** Unfolds a curve down to its arithmetic; [normalize] is left folded. *)
Ltac unfold_curve :=
  unfold easeOutCubic, easeInOutCubic, easeInOutCubic_first, easeInOutCubic_second,
    easeInQuart, easeOutQuart, easeInOutQuart, easeInOutQuart_first,
    easeInOutQuart_second, easeInQuint, easeOutQuint, easeInOutQuint,
    easeInOutQuint_first, easeInOutQuint_second, easeInSine, easeOutSine,
    easeInOutSine, easeInExpo, easeOutExpo, easeInOutExpo, easeInOutExpo_first,
    easeInOutExpo_second, easeInCirc, easeOutCirc, easeInOutCirc,
    easeInOutCirc_first, easeInOutCirc_second, easeInElastic, easeOutElastic,
    easeInOutElastic, easeInOutElastic_first, easeInOutElastic_second,
    easeInOutElastic_normalize, elastic, easeInBack, easeOutBack, easeInOutBack,
    easeInOutBack_first, easeInOutBack_second, easeInOutBounce,
    easeInOutBounce_first, easeInOutBounce_second, easeInBounce, easeOutBounce,
    easeInQuad, easeOutQuad, easeInOutQuad, easeInOutQuad_first,
    easeInOutQuad_second, easeInCubic;
  cbv zeta.

Lemma offset_plus_scaled_shape_all (name : string) (f : TEasingFunction) :
  In (name, f) catalog ->
  forall t b c d : R, f t b c d = b + c * f t 0 1 d.
Proof.
  intros Hin t b c d. unfold catalog in Hin. simpl in Hin.
  repeat (destruct Hin as [Hin | Hin]; [injection Hin as <- <- | ]);
    try contradiction.
  all: unfold_curve; rewrite ?Reqb_refl, ?normalize_amplitude_is_change;
    cbn [Ease.a Ease.c Ease.p Ease.s]; split_tests; unfold Rdiv; ring.
Qed.

(** In every curve of the catalog the start value [b] is an offset and the
    change [c] a factor: [f(t, b, c, d) = b + c * f(t, 0, 1, d)].  This
    includes the elastic curves, whose amplitude and phase shift come from
    [normalize]. *)
Theorem curve_is_offset_plus_scaled_shape :
  forall (name : string) (f : TEasingFunction),
    In (name, f) catalog ->
    forall t b c d : R,
      d <> 0 ->
      (name = "easeOutCubic" \/ name = "easeOutQuint" -> d - 1 <> 0) ->
      f t b c d = b + c * f t 0 1 d.
Proof.
  intros name f Hin t b c d _ _. apply (offset_plus_scaled_shape_all name f Hin).
Qed.

Lemma curve_is_offset_plus_scaled_shape_witness :
  easeOutElastic 1 3 4 2 = 3 + 4 * easeOutElastic 1 0 1 2.
Proof.
  apply (curve_is_offset_plus_scaled_shape "easeOutElastic" easeOutElastic).
  - unfold catalog. simpl. tauto.
  - lra.
  - intros [Hn | Hn]; discriminate Hn.
Defined.

(** ** The curves depend on the time and the duration through [t / d] *)

Lemma Reqb_ext (x y x' y' : R) : (x = y <-> x' = y') -> (x === y) = (x' === y').
Proof.
  intros Hiff. unfold Reqb.
  destruct (Req_dec_T x y), (Req_dec_T x' y'); tauto || reflexivity.
Qed.

Lemma Rltb_ext (x y x' y' : R) : (x < y <-> x' < y') -> (x <? y) = (x' <? y').
Proof.
  intros Hiff. unfold Rltb.
  destruct (Rlt_dec x y), (Rlt_dec x' y'); tauto || reflexivity.
Qed.

Section Scaling.

Variables k d : R.
Hypothesis Hk : 0 < k.
Hypothesis Hd : d <> 0.

Lemma scale_div (t : R) : k * t / (k * d) = t / d.
Proof. field. split; [exact Hd | lra]. Qed.

Lemma scale_div_half (t : R) : k * t / (k * d / 2) = t / (d / 2).
Proof. field. split; [exact Hd | lra]. Qed.

Lemma scale_div_PI (t : R) : PI * (k * t) / (k * d) = PI * t / d.
Proof. field. split; [exact Hd | lra]. Qed.

Lemma scale_div_m10 (t : R) : -10 * (k * t) / (k * d) = -10 * t / d.
Proof. field. split; [exact Hd | lra]. Qed.

Lemma scale_eq_0 (t : R) : (k * t === 0) = (t === 0).
Proof. apply Reqb_ext. split; intros Heq; nra. Qed.

Lemma scale_eq_d (t : R) : (k * t === k * d) = (t === d).
Proof. apply Reqb_ext. split; intros Heq; nra. Qed.

Lemma scale_lt_half (t : R) : (k * t <? k * d / 2) = (t <? d / 2).
Proof. apply Rltb_ext. split; intros Hlt; nra. Qed.

Lemma scale_phase (u q : R) :
  q <> 0 ->
  (u * (k * d) - k * d * q / 4) * twoMathPi / (k * d * q)
  = (u * d - d * q / 4) * twoMathPi / (d * q).
Proof. intros Hq. field. repeat split; [exact Hq | exact Hd | lra]. Qed.

(** Rewrites a curve at [(k t, k d)] into the curve at [(t, d)]. *)
Ltac rescale :=
  unfold_curve;
  rewrite ?scale_eq_0, ?scale_eq_d, ?scale_lt_half, ?scale_div, ?scale_div_half,
    ?scale_div_PI, ?scale_div_m10, ?Reqb_refl, ?normalize_amplitude_is_change;
  cbn [Ease.a Ease.c Ease.p Ease.s];
  rewrite ?scale_phase by lra;
  reflexivity.

Lemma easeOutBounce_scale (t b c : R) :
  easeOutBounce (k * t) b c (k * d) = easeOutBounce t b c d.
Proof. rescale. Qed.

Lemma easeInBounce_scale (t b c : R) :
  easeInBounce (k * t) b c (k * d) = easeInBounce t b c d.
Proof.
  unfold easeInBounce. replace (k * d - k * t) with (k * (d - t)) by ring.
  rewrite easeOutBounce_scale. reflexivity.
Qed.

Lemma easeInOutBounce_scale (t b c : R) :
  easeInOutBounce (k * t) b c (k * d) = easeInOutBounce t b c d.
Proof.
  unfold easeInOutBounce, easeInOutBounce_first, easeInOutBounce_second.
  rewrite scale_lt_half.
  replace (k * t * 2) with (k * (t * 2)) by ring.
  replace (k * (t * 2) - k * d) with (k * (t * 2 - d)) by ring.
  rewrite easeInBounce_scale, easeOutBounce_scale. reflexivity.
Qed.

Lemma scale_free_all (name : string) (f : TEasingFunction) :
  In (name, f) catalog ->
  name <> "easeOutCubic" -> name <> "easeOutQuint" ->
  forall t b c : R, f (k * t) b c (k * d) = f t b c d.
Proof.
  intros Hin Hcubic Hquint t b c. unfold catalog in Hin. simpl in Hin.
  repeat (destruct Hin as [Hin | Hin];
          [injection Hin as <- <-; try contradiction | ]);
    try contradiction.
  all: first [ apply easeOutBounce_scale | apply easeInBounce_scale
             | apply easeInOutBounce_scale | rescale ].
Qed.

End Scaling.

(** The two curves left out do depend on the unit of time: they divide by
    [d - 1]. *)
Lemma easeOutCubic_not_scale_free : easeOutCubic (2 * 1) 0 1 (2 * 2) <> easeOutCubic 1 0 1 2.
Proof. unfold easeOutCubic. cbv zeta. lra. Qed.

(** Measuring the time and the duration in another unit does not change a
    curve: for [k > 0], [f(k t, b, c, k d) = f(t, b, c, d)], for every curve
    of the catalog other than [easeOutCubic] and [easeOutQuint], which
    divide the time by [d - 1]. *)
Theorem curve_depends_on_time_ratio :
  forall (name : string) (f : TEasingFunction),
    In (name, f) catalog ->
    name <> "easeOutCubic" -> name <> "easeOutQuint" ->
    forall k t b c d : R,
      0 < k -> d <> 0 ->
      f (k * t) b c (k * d) = f t b c d.
Proof.
  intros name f Hin Hcubic Hquint k t b c d Hk Hd.
  apply (scale_free_all k d Hk Hd name f Hin Hcubic Hquint).
Qed.

Lemma curve_depends_on_time_ratio_witness :
  easeInOutElastic (1000 * 0.25) 3 4 (1000 * 1) = easeInOutElastic 0.25 3 4 1.
Proof.
  apply (curve_depends_on_time_ratio "easeInOutElastic" easeInOutElastic).
  - unfold catalog. simpl. tauto.
  - discriminate.
  - discriminate.
  - lra.
  - lra.
Defined.

(** ** An "out" curve is its "in" curve run backwards *)

Import EaseFamilies.

Lemma div_rev (t d : R) : d <> 0 -> (d - t) / d = 1 - t / d.
Proof. intros Hd. field. exact Hd. Qed.

Lemma div_half_rev (t d : R) : d <> 0 -> (d - t) / (d / 2) = 2 - t / (d / 2).
Proof. intros Hd. field. exact Hd. Qed.

Lemma Quad_mirror (t b c d : R) :
  d <> 0 -> easeOutQuad t b c d + easeInQuad (d - t) b c d = 2 * b + c.
Proof. intros Hd. unfold easeOutQuad, easeInQuad. cbv zeta. rewrite div_rev by exact Hd. ring. Qed.

Lemma Quart_mirror (t b c d : R) :
  d <> 0 -> easeOutQuart t b c d + easeInQuart (d - t) b c d = 2 * b + c.
Proof. intros Hd. unfold easeOutQuart, easeInQuart. cbv zeta. rewrite div_rev by exact Hd. ring. Qed.

Lemma Back_mirror (t b c d s : R) :
  d <> 0 -> easeOutBack t b c d s + easeInBack (d - t) b c d s = 2 * b + c.
Proof. intros Hd. unfold easeOutBack, easeInBack. cbv zeta. rewrite div_rev by exact Hd. ring. Qed.

Lemma Sine_mirror (t b c d : R) :
  d <> 0 -> easeOutSine t b c d + easeInSine (d - t) b c d = 2 * b + c.
Proof.
  intros Hd. unfold easeOutSine, easeInSine, halfPI. rewrite div_rev by exact Hd.
  replace ((1 - t / d) * (PI / 2)) with (PI / 2 - t / d * (PI / 2)) by ring.
  rewrite cos_shift. ring.
Qed.

Lemma Circ_mirror (t b c d : R) :
  d <> 0 -> easeOutCirc t b c d + easeInCirc (d - t) b c d = 2 * b + c.
Proof.
  intros Hd. unfold easeOutCirc, easeInCirc. cbv zeta. rewrite div_rev by exact Hd.
  replace ((1 - t / d) * (1 - t / d)) with ((t / d - 1) * (t / d - 1)) by ring.
  ring.
Qed.

Lemma easeOutBounce_offset (t b c d : R) :
  easeOutBounce t b c d = easeOutBounce t 0 c d + b.
Proof. unfold easeOutBounce. cbv zeta. split_tests; ring. Qed.

Lemma Bounce_mirror (t b c d : R) :
  d <> 0 -> easeOutBounce t b c d + easeInBounce (d - t) b c d = 2 * b + c.
Proof.
  intros Hd. unfold easeInBounce. replace (d - (d - t)) with t by ring.
  rewrite (easeOutBounce_offset t b). ring.
Qed.

(** The sines of the elastic waveforms: with the phase shift [p / 4] the
    waveform is a cosine, and an even function of the time. *)
Lemma elastic_sin (u d q : R) :
  d <> 0 -> q <> 0 ->
  sin ((u * d - d * q / 4) * twoMathPi / (d * q)) = - cos (u * (2 * PI) / q).
Proof.
  intros Hd Hq.
  replace ((u * d - d * q / 4) * twoMathPi / (d * q))
    with (- (PI / 2 - u * (2 * PI) / q))
    by (unfold twoMathPi; field; split; assumption).
  rewrite sin_neg, sin_shift. reflexivity.
Qed.

Lemma elastic_cos_even (u q : R) : cos (- u * (2 * PI) / q) = cos (u * (2 * PI) / q).
Proof.
  replace (- u * (2 * PI) / q) with (- (u * (2 * PI) / q)) by (unfold Rdiv; ring).
  apply cos_neg.
Qed.

Lemma Elastic_mirror (t b c d : R) :
  d <> 0 -> easeOutElastic t b c d + easeInElastic (d - t) b c d = 2 * b + c.
Proof.
  intros Hd. unfold easeOutElastic, easeInElastic, elastic. cbv zeta.
  rewrite Reqb_refl, normalize_amplitude_is_change. cbn [Ease.a Ease.c Ease.p Ease.s].
  rewrite (div_rev t d Hd).
  destruct (Req_dec_T t 0) as [Ht0 | Ht0].
  { subst t. rewrite Reqb_refl, Rminus_0_r, (Reqb_neq d 0 Hd), div_0_l.
    replace (1 - 0) with 1 by ring. rewrite Reqb_refl. ring. }
  rewrite (Reqb_neq t 0 Ht0).
  destruct (Req_dec_T t d) as [Htd | Htd].
  { subst t. rewrite (div_same d Hd), Reqb_refl.
    replace (d - d) with 0 by ring. rewrite Reqb_refl. ring. }
  assert (Hu1 : t / d <> 1).
  { intros Hu. apply Htd. replace t with (t / d * d) by (field; exact Hd).
    rewrite Hu. ring. }
  assert (Hu0 : t / d <> 0).
  { intros Hu. apply Ht0. replace t with (t / d * d) by (field; exact Hd).
    rewrite Hu. ring. }
  rewrite (Reqb_neq (t / d) 1 Hu1), (Reqb_neq (d - t) 0), (Reqb_neq (1 - t / d) 1) by lra.
  replace (10 * (1 - t / d - 1)) with (-10 * (t / d)) by ring.
  replace (1 - t / d - 1) with (- (t / d)) by ring.
  rewrite !elastic_sin by lra. rewrite elastic_cos_even. ring.
Qed.

Lemma in_out_pairs_mirror (family : string) (fin fout : TEasingFunction) :
  In (family, (fin, fout)) in_out_pairs ->
  forall t b c d : R, d <> 0 -> fout t b c d + fin (d - t) b c d = 2 * b + c.
Proof.
  intros Hin t b c d Hd. unfold in_out_pairs in Hin. simpl in Hin.
  repeat (destruct Hin as [Hin | Hin]; [injection Hin as <- <- <- | ]);
    try contradiction.
  - apply Quad_mirror, Hd.
  - apply Quart_mirror, Hd.
  - apply Sine_mirror, Hd.
  - apply Circ_mirror, Hd.
  - apply Elastic_mirror, Hd.
  - apply Back_mirror, Hd.
  - apply Bounce_mirror, Hd.
Qed.

(** In the quadratic, quartic, sinusoidal, circular, elastic, back and
    bounce families the "out" curve is the "in" curve run backwards and
    turned upside down: [out(t) = b + (b + c) - in(d - t)], for every time
    [t] and every duration [d <> 0]. *)
Theorem out_curve_mirrors_in_curve :
  forall (family : string) (fin fout : TEasingFunction),
    In (family, (fin, fout)) in_out_pairs ->
    forall t b c d : R,
      d <> 0 ->
      fout t b c d = b + (b + c) - fin (d - t) b c d.
Proof.
  intros family fin fout Hin t b c d Hd.
  pose proof (in_out_pairs_mirror family fin fout Hin t b c d Hd) as Hsum. lra.
Qed.

Lemma out_curve_mirrors_in_curve_witness :
  easeOutElastic 0.5 3 4 2 = 3 + (3 + 4) - easeInElastic (2 - 0.5) 3 4 2.
Proof.
  apply (out_curve_mirrors_in_curve "Elastic" easeInElastic easeOutElastic).
  - unfold in_out_pairs. simpl. tauto.
  - lra.
Defined.

(** ** An "in and out" curve is symmetric about its midpoint *)

(** A curve made of two branches on the normalized time [u = t / (d / 2)],
    split at [u < 1], is symmetric as soon as the branches mirror each other
    and the second one passes through the centre. *)
Lemma two_branches_symmetric (first second : R -> R) (K t d : R) :
  d <> 0 ->
  (forall u : R, first u + second (2 - u) = K) ->
  second 1 + second 1 = K ->
  (if t / (d / 2) <? 1 then first (t / (d / 2)) else second (t / (d / 2)))
  + (if (d - t) / (d / 2) <? 1 then first ((d - t) / (d / 2))
     else second ((d - t) / (d / 2)))
  = K.
Proof.
  intros Hd Hmirror Hcentre. rewrite (div_half_rev t d Hd).
  set (u := t / (d / 2)).
  destruct (Rtotal_order u 1) as [Hlt | [Heq | Hgt]].
  - rewrite (Rltb_lt u 1), (Rltb_ge (2 - u) 1) by lra. apply Hmirror.
  - rewrite Heq. replace (2 - 1) with 1 by ring.
    rewrite (Rltb_ge 1 1) by lra. exact Hcentre.
  - rewrite (Rltb_ge u 1), (Rltb_lt (2 - u) 1) by lra.
    rewrite Rplus_comm. replace u with (2 - (2 - u)) at 2 by ring. apply Hmirror.
Qed.

Lemma easeInOutQuad_symmetric (t b c d : R) :
  d <> 0 -> easeInOutQuad t b c d + easeInOutQuad (d - t) b c d = 2 * b + c.
Proof.
  intros Hd. unfold easeInOutQuad. cbv zeta.
  apply (two_branches_symmetric (fun u => easeInOutQuad_first u b c)
           (fun u => easeInOutQuad_second u b c)); [exact Hd | intros u | ];
    unfold easeInOutQuad_first, easeInOutQuad_second; cbv zeta; field.
Qed.

Lemma easeInOutCubic_symmetric (t b c d : R) :
  d <> 0 -> easeInOutCubic t b c d + easeInOutCubic (d - t) b c d = 2 * b + c.
Proof.
  intros Hd. unfold easeInOutCubic. cbv zeta.
  apply (two_branches_symmetric (fun u => easeInOutCubic_first u b c)
           (fun u => easeInOutCubic_second u b c)); [exact Hd | intros u | ];
    unfold easeInOutCubic_first, easeInOutCubic_second; cbv zeta; field.
Qed.

Lemma easeInOutQuart_symmetric (t b c d : R) :
  d <> 0 -> easeInOutQuart t b c d + easeInOutQuart (d - t) b c d = 2 * b + c.
Proof.
  intros Hd. unfold easeInOutQuart. cbv zeta.
  apply (two_branches_symmetric (fun u => easeInOutQuart_first u b c)
           (fun u => easeInOutQuart_second u b c)); [exact Hd | intros u | ];
    unfold easeInOutQuart_first, easeInOutQuart_second; cbv zeta; field.
Qed.

Lemma easeInOutQuint_symmetric (t b c d : R) :
  d <> 0 -> easeInOutQuint t b c d + easeInOutQuint (d - t) b c d = 2 * b + c.
Proof.
  intros Hd. unfold easeInOutQuint. cbv zeta.
  apply (two_branches_symmetric (fun u => easeInOutQuint_first u b c)
           (fun u => easeInOutQuint_second u b c)); [exact Hd | intros u | ];
    unfold easeInOutQuint_first, easeInOutQuint_second; cbv zeta; field.
Qed.

Lemma easeInOutBack_symmetric (t b c d s : R) :
  d <> 0 -> easeInOutBack t b c d s + easeInOutBack (d - t) b c d s = 2 * b + c.
Proof.
  intros Hd. unfold easeInOutBack. cbv zeta.
  apply (two_branches_symmetric (fun u => easeInOutBack_first u b c s)
           (fun u => easeInOutBack_second u b c s)); [exact Hd | intros u | ];
    unfold easeInOutBack_first, easeInOutBack_second; cbv zeta; field.
Qed.

Lemma easeInOutCirc_symmetric (t b c d : R) :
  d <> 0 -> easeInOutCirc t b c d + easeInOutCirc (d - t) b c d = 2 * b + c.
Proof.
  intros Hd. unfold easeInOutCirc. cbv zeta.
  apply (two_branches_symmetric (fun u => easeInOutCirc_first u b c)
           (fun u => easeInOutCirc_second u b c)); [exact Hd | intros u | ];
    unfold easeInOutCirc_first, easeInOutCirc_second; cbv zeta.
  - replace ((2 - u - 2) * (2 - u - 2)) with (u ^ 2) by ring. field.
  - replace (1 - (1 - 2) * (1 - 2)) with 0 by ring. rewrite sqrt_0. field.
Qed.

Lemma easeInOutSine_symmetric (t b c d : R) :
  d <> 0 -> easeInOutSine t b c d + easeInOutSine (d - t) b c d = 2 * b + c.
Proof.
  intros Hd. unfold easeInOutSine.
  replace (PI * (d - t) / d) with (- (PI * t / d) + PI) by (field; exact Hd).
  rewrite neg_cos, cos_neg. field.
Qed.

Lemma easeInOutBounce_symmetric (t b c d : R) :
  d <> 0 -> easeInOutBounce t b c d + easeInOutBounce (d - t) b c d = 2 * b + c.
Proof.
  intros Hd. unfold easeInOutBounce, easeInOutBounce_first, easeInOutBounce_second,
    easeInBounce.
  destruct (Rtotal_order t (d / 2)) as [Hlt | [Heq | Hgt]].
  - rewrite (Rltb_lt t (d / 2)), (Rltb_ge (d - t) (d / 2)) by lra.
    replace ((d - t) * 2 - d) with (d - t * 2) by ring. lra.
  - rewrite (Rltb_ge t (d / 2)), (Rltb_ge (d - t) (d / 2)) by lra.
    replace ((d - t) * 2 - d) with 0 by lra. replace (t * 2 - d) with 0 by lra.
    rewrite easeOutBounce_start by exact Hd. lra.
  - rewrite (Rltb_ge t (d / 2)), (Rltb_lt (d - t) (d / 2)) by lra.
    replace (d - (d - t) * 2) with (t * 2 - d) by ring. lra.
Qed.

Lemma easeInOutElastic_symmetric (t b c d : R) :
  d <> 0 -> easeInOutElastic t b c d + easeInOutElastic (d - t) b c d = 2 * b + c.
Proof.
  intros Hd. unfold easeInOutElastic. cbv zeta.
  destruct (Req_dec_T t 0) as [Ht0 | Ht0].
  { subst t. rewrite Reqb_refl, Rminus_0_r, (Reqb_neq d 0 Hd), (div_half d Hd),
      Reqb_refl. ring. }
  destruct (Req_dec_T t d) as [Htd | Htd].
  { subst t. rewrite (Reqb_neq d 0 Hd), (div_half d Hd), Reqb_refl.
    replace (d - d) with 0 by ring. rewrite Reqb_refl. ring. }
  assert (Hmul : t / (d / 2) * (d / 2) = t) by (field; exact Hd).
  assert (Hu2 : t / (d / 2) <> 2) by (intros Hu; rewrite Hu in Hmul; lra).
  assert (Hu0 : t / (d / 2) <> 0) by (intros Hu; rewrite Hu in Hmul; lra).
  rewrite (Reqb_neq t 0 Ht0), (Reqb_neq (d - t) 0), (Reqb_neq _ _ Hu2) by lra.
  rewrite (Reqb_neq ((d - t) / (d / 2)) 2)
    by (rewrite (div_half_rev t d Hd); lra).
  unfold easeInOutElastic_normalize. cbv zeta.
  rewrite Reqb_refl, normalize_amplitude_is_change.
  apply (two_branches_symmetric
           (fun u => easeInOutElastic_first
                       (Normalized c c (d * (0.3 * 1.5)) (d * (0.3 * 1.5) / 4)) u b d)
           (fun u => easeInOutElastic_second
                       (Normalized c c (d * (0.3 * 1.5)) (d * (0.3 * 1.5) / 4)) u b d));
    [exact Hd | intros u | ];
    unfold easeInOutElastic_first, easeInOutElastic_second, elastic; cbv zeta;
    cbn [Ease.a Ease.c Ease.p Ease.s]; rewrite !elastic_sin by lra.
  - replace (-10 * (2 - u - 1)) with (10 * (u - 1)) by ring.
    replace (2 - u - 1) with (- (u - 1)) by ring.
    rewrite elastic_cos_even. lra.
  - replace (-10 * (1 - 1)) with 0 by ring. replace (1 - 1) with 0 by ring.
    rewrite Rpower_2_0. replace (0 * (2 * PI) / (0.3 * 1.5)) with 0 by (unfold Rdiv; ring).
    rewrite cos_0. lra.
Qed.

Lemma in_out_curves_symmetric (name : string) (f : TEasingFunction) :
  In (name, f) in_out_curves ->
  forall t b c d : R, d <> 0 -> f t b c d + f (d - t) b c d = 2 * b + c.
Proof.
  intros Hin t b c d Hd. unfold in_out_curves in Hin. simpl in Hin.
  repeat (destruct Hin as [Hin | Hin]; [injection Hin as <- <- | ]);
    try contradiction.
  - apply easeInOutQuad_symmetric, Hd.
  - apply easeInOutCubic_symmetric, Hd.
  - apply easeInOutQuart_symmetric, Hd.
  - apply easeInOutQuint_symmetric, Hd.
  - apply easeInOutSine_symmetric, Hd.
  - apply easeInOutCirc_symmetric, Hd.
  - apply easeInOutElastic_symmetric, Hd.
  - apply easeInOutBack_symmetric, Hd.
  - apply easeInOutBounce_symmetric, Hd.
Qed.

(** Every "in and out" curve other than the exponential one is symmetric
    about the midpoint of the animation: the values at [t] and at [d - t]
    lie as far from the two ends, [f(d - t) = b + (b + c) - f(t)], for every
    [t] and every duration [d <> 0]; in particular the value at [d / 2] is
    [b + c / 2]. *)
Theorem in_out_curve_is_symmetric :
  forall (name : string) (f : TEasingFunction),
    In (name, f) in_out_curves ->
    forall t b c d : R,
      d <> 0 ->
      f (d - t) b c d = b + (b + c) - f t b c d
      /\ f (d / 2) b c d = b + c / 2.
Proof.
  intros name f Hin t b c d Hd. split.
  - pose proof (in_out_curves_symmetric name f Hin t b c d Hd) as Hsum. lra.
  - pose proof (in_out_curves_symmetric name f Hin (d / 2) b c d Hd) as Hsum.
    replace (d - d / 2) with (d / 2) in Hsum by field. lra.
Qed.

Lemma in_out_curve_is_symmetric_witness :
  easeInOutBounce (2 - 0.5) 3 4 2 = 3 + (3 + 4) - easeInOutBounce 0.5 3 4 2
  /\ easeInOutBounce (2 / 2) 3 4 2 = 3 + 4 / 2.
Proof.
  apply (in_out_curve_is_symmetric "easeInOutBounce" easeInOutBounce).
  - unfold in_out_curves. simpl. tauto.
  - lra.
Defined.

(** ** Curves that rise without turning back *)

Lemma unit_ratio (t d : R) : 0 < d -> 0 <= t <= d -> 0 <= t / d <= 1.
Proof.
  intros Hd [H0 H1]. assert (Hinv : 0 < / d) by (apply Rinv_0_lt_compat, Hd).
  unfold Rdiv. split.
  - apply Rmult_le_pos; lra.
  - apply (Rmult_le_reg_r d); [exact Hd | ].
    rewrite Rmult_assoc, Rinv_l by lra. lra.
Qed.

Lemma half_ratio (t d : R) : 0 < d -> 0 <= t <= d -> 0 <= t / (d / 2) <= 2.
Proof.
  intros Hd Ht. pose proof (unit_ratio t d Hd Ht) as Hu.
  replace (t / (d / 2)) with (2 * (t / d)) by (field; lra). lra.
Qed.

Lemma half_ratio_le (t1 t2 d : R) : 0 < d -> t1 <= t2 -> t1 / (d / 2) <= t2 / (d / 2).
Proof. intros Hd Hle. apply div_le_pos; lra. Qed.

Lemma pow_unit (v : R) (n : nat) : 0 <= v <= 1 -> 0 <= v ^ n <= 1.
Proof.
  intros [H0 H1]. split; [apply pow_le, H0 | ].
  rewrite <- (pow1 n). apply pow_incr. lra.
Qed.

(** A curve made of two branches on the normalized time rises on [[0, 2]]
    when each branch rises on its half and the branches meet at [1]. *)
Lemma two_branches_rise (first second : R -> R) (u1 u2 : R) :
  (forall v1 v2 : R, 0 <= v1 -> v1 <= v2 -> v2 <= 1 -> first v1 <= first v2) ->
  (forall v1 v2 : R, 1 <= v1 -> v1 <= v2 -> v2 <= 2 -> second v1 <= second v2) ->
  first 1 = second 1 ->
  0 <= u1 -> u1 <= u2 -> u2 <= 2 ->
  (if u1 <? 1 then first u1 else second u1)
  <= (if u2 <? 1 then first u2 else second u2).
Proof.
  intros Hfirst Hsecond Hmeet H0 Hle H2.
  destruct (Rlt_dec u1 1) as [H1 | H1], (Rlt_dec u2 1) as [H1' | H1'].
  - rewrite (Rltb_lt u1 1 H1), (Rltb_lt u2 1 H1'). apply Hfirst; lra.
  - rewrite (Rltb_lt u1 1 H1), (Rltb_ge u2 1) by lra.
    apply (Rle_trans _ (first 1)); [apply Hfirst; lra | ].
    rewrite Hmeet. apply Hsecond; lra.
  - lra.
  - rewrite (Rltb_ge u1 1), (Rltb_ge u2 1) by lra. apply Hsecond; lra.
Qed.

Section Rising.

Variables t1 t2 d : R.
Hypothesis Hd : 0 < d.
Hypothesis Ht1 : 0 <= t1.
Hypothesis Hle : t1 <= t2.
Hypothesis Ht2 : t2 <= d.

Let u1 := t1 / d.
Let u2 := t2 / d.

Lemma rising_u : 0 <= u1 /\ u1 <= u2 /\ u2 <= 1.
Proof.
  unfold u1, u2.
  pose proof (unit_ratio t1 d Hd) as H1. pose proof (unit_ratio t2 d Hd) as H2.
  pose proof (div_le_pos t1 t2 d Hd Hle) as H3. lra.
Qed.

Lemma rising_h :
  0 <= t1 / (d / 2) /\ t1 / (d / 2) <= t2 / (d / 2) /\ t2 / (d / 2) <= 2.
Proof.
  pose proof (half_ratio t1 d Hd) as H1. pose proof (half_ratio t2 d Hd) as H2.
  pose proof (half_ratio_le t1 t2 d Hd Hle) as H3. lra.
Qed.

Lemma easeInQuad_rises : easeInQuad t1 0 1 d <= easeInQuad t2 0 1 d.
Proof.
  unfold easeInQuad. cbv zeta. fold u1 u2. destruct rising_u as (H0 & H1 & H2). nra.
Qed.

Lemma easeOutQuad_rises : easeOutQuad t1 0 1 d <= easeOutQuad t2 0 1 d.
Proof.
  unfold easeOutQuad. cbv zeta. fold u1 u2. destruct rising_u as (H0 & H1 & H2). nra.
Qed.

Lemma easeInCubic_rises : easeInCubic t1 0 1 d <= easeInCubic t2 0 1 d.
Proof.
  unfold easeInCubic. cbv zeta. fold u1 u2. destruct rising_u as (H0 & H1 & H2).
  pose proof (pow_incr u1 u2 3 (conj H0 H1)) as Hp. simpl in Hp. lra.
Qed.

Lemma easeInQuart_rises : easeInQuart t1 0 1 d <= easeInQuart t2 0 1 d.
Proof.
  unfold easeInQuart. cbv zeta. fold u1 u2. destruct rising_u as (H0 & H1 & H2).
  pose proof (pow_incr u1 u2 4 (conj H0 H1)) as Hp.
  replace (1 * u1 * u1 ^ 3 + 0) with (u1 ^ 4) by ring.
  replace (1 * u2 * u2 ^ 3 + 0) with (u2 ^ 4) by ring. exact Hp.
Qed.

Lemma easeInQuint_rises : easeInQuint t1 0 1 d <= easeInQuint t2 0 1 d.
Proof.
  unfold easeInQuint. cbv zeta. fold u1 u2. destruct rising_u as (H0 & H1 & H2).
  pose proof (pow_incr u1 u2 5 (conj H0 H1)) as Hp.
  replace (1 * u1 * u1 ^ 4 + 0) with (u1 ^ 5) by ring.
  replace (1 * u2 * u2 ^ 4 + 0) with (u2 ^ 5) by ring. exact Hp.
Qed.

Lemma easeOutQuart_rises : easeOutQuart t1 0 1 d <= easeOutQuart t2 0 1 d.
Proof.
  unfold easeOutQuart. cbv zeta. fold u1 u2. destruct rising_u as (H0 & H1 & H2).
  assert (Hp : (1 - u2) ^ 4 <= (1 - u1) ^ 4) by (apply pow_incr; lra).
  replace (- (1) * ((u1 - 1) * (u1 - 1) ^ 3 - 1) + 0) with (1 - (1 - u1) ^ 4) by ring.
  replace (- (1) * ((u2 - 1) * (u2 - 1) ^ 3 - 1) + 0) with (1 - (1 - u2) ^ 4) by ring.
  lra.
Qed.

Lemma easeInOutQuad_rises : easeInOutQuad t1 0 1 d <= easeInOutQuad t2 0 1 d.
Proof.
  unfold easeInOutQuad. cbv zeta. destruct rising_h as (H0 & H1 & H2).
  apply (two_branches_rise (fun u => easeInOutQuad_first u 0 1)
           (fun u => easeInOutQuad_second u 0 1)); try assumption;
    unfold easeInOutQuad_first, easeInOutQuad_second; cbv zeta.
  - intros v1 v2 Hv0 Hv1 Hv2. nra.
  - intros v1 v2 Hv0 Hv1 Hv2. nra.
  - field.
Qed.

Lemma easeInOutCubic_rises : easeInOutCubic t1 0 1 d <= easeInOutCubic t2 0 1 d.
Proof.
  unfold easeInOutCubic. cbv zeta. destruct rising_h as (H0 & H1 & H2).
  apply (two_branches_rise (fun u => easeInOutCubic_first u 0 1)
           (fun u => easeInOutCubic_second u 0 1)); try assumption;
    unfold easeInOutCubic_first, easeInOutCubic_second; cbv zeta.
  - intros v1 v2 Hv0 Hv1 Hv2.
    pose proof (pow_incr v1 v2 3 (conj Hv0 Hv1)) as Hp. lra.
  - intros v1 v2 Hv0 Hv1 Hv2.
    assert (Hp : (2 - v2) ^ 3 <= (2 - v1) ^ 3) by (apply pow_incr; lra).
    replace ((v1 - 2) * (v1 - 2) ^ 2) with (- (2 - v1) ^ 3) by ring.
    replace ((v2 - 2) * (v2 - 2) ^ 2) with (- (2 - v2) ^ 3) by ring. lra.
  - field.
Qed.

Lemma easeInOutQuart_rises : easeInOutQuart t1 0 1 d <= easeInOutQuart t2 0 1 d.
Proof.
  unfold easeInOutQuart. cbv zeta. destruct rising_h as (H0 & H1 & H2).
  apply (two_branches_rise (fun u => easeInOutQuart_first u 0 1)
           (fun u => easeInOutQuart_second u 0 1)); try assumption;
    unfold easeInOutQuart_first, easeInOutQuart_second; cbv zeta.
  - intros v1 v2 Hv0 Hv1 Hv2.
    pose proof (pow_incr v1 v2 4 (conj Hv0 Hv1)) as Hp. lra.
  - intros v1 v2 Hv0 Hv1 Hv2.
    assert (Hp : (2 - v2) ^ 4 <= (2 - v1) ^ 4) by (apply pow_incr; lra).
    replace ((v1 - 2) * (v1 - 2) ^ 3) with ((2 - v1) ^ 4) by ring.
    replace ((v2 - 2) * (v2 - 2) ^ 3) with ((2 - v2) ^ 4) by ring. lra.
  - field.
Qed.

Lemma easeInOutQuint_rises : easeInOutQuint t1 0 1 d <= easeInOutQuint t2 0 1 d.
Proof.
  unfold easeInOutQuint. cbv zeta. destruct rising_h as (H0 & H1 & H2).
  apply (two_branches_rise (fun u => easeInOutQuint_first u 0 1)
           (fun u => easeInOutQuint_second u 0 1)); try assumption;
    unfold easeInOutQuint_first, easeInOutQuint_second; cbv zeta.
  - intros v1 v2 Hv0 Hv1 Hv2.
    pose proof (pow_incr v1 v2 5 (conj Hv0 Hv1)) as Hp. lra.
  - intros v1 v2 Hv0 Hv1 Hv2.
    assert (Hp : (2 - v2) ^ 5 <= (2 - v1) ^ 5) by (apply pow_incr; lra).
    replace ((v1 - 2) * (v1 - 2) ^ 4) with (- (2 - v1) ^ 5) by ring.
    replace ((v2 - 2) * (v2 - 2) ^ 4) with (- (2 - v2) ^ 5) by ring. lra.
  - field.
Qed.

Lemma easeInSine_rises : easeInSine t1 0 1 d <= easeInSine t2 0 1 d.
Proof.
  unfold easeInSine, halfPI. fold u1 u2. destruct rising_u as (H0 & H1 & H2).
  pose proof PI_RGT_0 as Hpi.
  assert (Hcos : cos (u2 * (PI / 2)) <= cos (u1 * (PI / 2)))
    by (apply cos_decr_1; nra).
  lra.
Qed.

Lemma easeOutSine_rises : easeOutSine t1 0 1 d <= easeOutSine t2 0 1 d.
Proof.
  unfold easeOutSine, halfPI. fold u1 u2. destruct rising_u as (H0 & H1 & H2).
  pose proof PI_RGT_0 as Hpi.
  assert (Hsin : sin (u1 * (PI / 2)) <= sin (u2 * (PI / 2)))
    by (apply sin_incr_1; nra).
  lra.
Qed.

Lemma easeInOutSine_rises : easeInOutSine t1 0 1 d <= easeInOutSine t2 0 1 d.
Proof.
  unfold easeInOutSine. destruct rising_u as (H0 & H1 & H2).
  pose proof PI_RGT_0 as Hpi.
  replace (PI * t1 / d) with (u1 * PI) by (unfold u1, Rdiv; ring).
  replace (PI * t2 / d) with (u2 * PI) by (unfold u2, Rdiv; ring).
  assert (Hcos : cos (u2 * PI) <= cos (u1 * PI)) by (apply cos_decr_1; nra).
  lra.
Qed.

Lemma easeInCirc_rises : easeInCirc t1 0 1 d <= easeInCirc t2 0 1 d.
Proof.
  unfold easeInCirc. cbv zeta. fold u1 u2. destruct rising_u as (H0 & H1 & H2).
  assert (Hsqrt : sqrt (1 - u2 * u2) <= sqrt (1 - u1 * u1))
    by (apply sqrt_le_1_alt; nra).
  lra.
Qed.

Lemma easeOutCirc_rises : easeOutCirc t1 0 1 d <= easeOutCirc t2 0 1 d.
Proof.
  unfold easeOutCirc. cbv zeta. fold u1 u2. destruct rising_u as (H0 & H1 & H2).
  assert (Hsqrt : sqrt (1 - (u1 - 1) * (u1 - 1)) <= sqrt (1 - (u2 - 1) * (u2 - 1)))
    by (apply sqrt_le_1_alt; nra).
  lra.
Qed.

Lemma easeInOutCirc_rises : easeInOutCirc t1 0 1 d <= easeInOutCirc t2 0 1 d.
Proof.
  unfold easeInOutCirc. cbv zeta. destruct rising_h as (H0 & H1 & H2).
  apply (two_branches_rise (fun u => easeInOutCirc_first u 0 1)
           (fun u => easeInOutCirc_second u 0 1)); try assumption;
    unfold easeInOutCirc_first, easeInOutCirc_second; cbv zeta.
  - intros v1 v2 Hv0 Hv1 Hv2.
    assert (Hsqrt : sqrt (1 - v2 ^ 2) <= sqrt (1 - v1 ^ 2))
      by (apply sqrt_le_1_alt; nra).
    lra.
  - intros v1 v2 Hv0 Hv1 Hv2.
    assert (Hsqrt : sqrt (1 - (v1 - 2) * (v1 - 2)) <= sqrt (1 - (v2 - 2) * (v2 - 2)))
      by (apply sqrt_le_1_alt; nra).
    lra.
  - replace (1 - 1 ^ 2) with 0 by ring.
    replace (1 - (1 - 2) * (1 - 2)) with 0 by ring. rewrite sqrt_0. field.
Qed.

Lemma easeInExpo_rises : easeInExpo t1 0 1 d <= easeInExpo t2 0 1 d.
Proof.
  unfold easeInExpo. fold u1 u2. destruct rising_u as (H0 & H1 & H2).
  destruct (Req_dec_T t1 0) as [Hz1 | Hz1], (Req_dec_T t2 0) as [Hz2 | Hz2].
  - rewrite (Reqb_eq _ _ Hz1), (Reqb_eq _ _ Hz2). lra.
  - rewrite (Reqb_eq _ _ Hz1), (Reqb_neq _ _ Hz2).
    pose proof (exp_pos (10 * (u2 - 1) * ln 2)) as Hpos. unfold Rpower. lra.
  - lra.
  - rewrite (Reqb_neq _ _ Hz1), (Reqb_neq _ _ Hz2).
    assert (Hpow : Rpower 2 (10 * (u1 - 1)) <= Rpower 2 (10 * (u2 - 1)))
      by (apply Rle_Rpower; lra).
    lra.
Qed.

End Rising.

Lemma rising_curves_shape_rises (name : string) (f : TEasingFunction) :
  In (name, f) rising_curves ->
  forall t1 t2 d : R,
    0 < d -> 0 <= t1 -> t1 <= t2 -> t2 <= d -> f t1 0 1 d <= f t2 0 1 d.
Proof.
  intros Hin t1 t2 d Hd H0 Hle H1. unfold rising_curves in Hin. simpl in Hin.
  repeat (destruct Hin as [Hin | Hin]; [injection Hin as <- <- | ]);
    try contradiction.
  all: eauto using easeInQuad_rises, easeOutQuad_rises, easeInOutQuad_rises,
         easeInCubic_rises, easeInOutCubic_rises, easeInQuart_rises,
         easeOutQuart_rises, easeInOutQuart_rises, easeInQuint_rises,
         easeInOutQuint_rises, easeInSine_rises, easeOutSine_rises,
         easeInOutSine_rises, easeInExpo_rises, easeInCirc_rises,
         easeOutCirc_rises, easeInOutCirc_rises.
Qed.

Lemma rising_curves_in_catalog (name : string) (f : TEasingFunction) :
  In (name, f) rising_curves -> In (name, f) catalog.
Proof.
  intros Hin. unfold rising_curves in Hin. simpl in Hin.
  repeat (destruct Hin as [Hin | Hin]; [injection Hin as <- <- | ]);
    try contradiction.
  all: unfold catalog; simpl; tauto.
Qed.

Lemma rising_curves_boundary (name : string) (f : TEasingFunction) (d : R) :
  In (name, f) rising_curves -> d <> 0 -> boundary_conditions f d.
Proof.
  intros Hin Hd. unfold rising_curves in Hin. simpl in Hin.
  repeat (destruct Hin as [Hin | Hin]; [injection Hin as <- <- | ]);
    try contradiction.
  all: auto using easeInQuad_boundary, easeOutQuad_boundary,
         easeInOutQuad_boundary, easeInCubic_boundary, easeInOutCubic_boundary,
         easeInQuart_boundary, easeOutQuart_boundary, easeInOutQuart_boundary,
         easeInQuint_boundary, easeInOutQuint_boundary, easeInSine_boundary,
         easeOutSine_boundary, easeInOutSine_boundary, easeInExpo_boundary,
         easeInCirc_boundary, easeOutCirc_boundary, easeInOutCirc_boundary.
Qed.

(** The quadratic, cubic "in" and "in and out", quartic, quintic "in" and
    "in and out", sinusoidal, circular and exponential "in" curves never
    turn back and never overshoot: for a duration [d > 0] and a change
    [c >= 0], between two times [0 <= t1 <= t2 <= d] the value does not
    decrease, and it stays between the start value [b] and the end value
    [b + c]. *)
Theorem rising_curve_is_monotone :
  forall (name : string) (f : TEasingFunction),
    In (name, f) rising_curves ->
    forall t1 t2 b c d : R,
      0 < d -> 0 <= c -> 0 <= t1 -> t1 <= t2 -> t2 <= d ->
      b <= f t1 b c d /\ f t1 b c d <= f t2 b c d /\ f t2 b c d <= b + c.
Proof.
  intros name f Hin t1 t2 b c d Hd Hc H0 Hle H1.
  pose proof (rising_curves_in_catalog name f Hin) as Hcat.
  assert (Hd0 : d <> 0) by lra.
  destruct (rising_curves_boundary name f d Hin Hd0) as [Hstart Hfinish].
  specialize (Hstart b c). specialize (Hfinish b c).
  assert (Hrise : forall s1 s2 : R,
             0 <= s1 -> s1 <= s2 -> s2 <= d -> f s1 b c d <= f s2 b c d).
  { intros s1 s2 Hs0 Hsle Hs1.
    rewrite (offset_plus_scaled_shape_all name f Hcat s1 b c d),
      (offset_plus_scaled_shape_all name f Hcat s2 b c d).
    pose proof (rising_curves_shape_rises name f Hin s1 s2 d Hd Hs0 Hsle Hs1).
    nra. }
  pose proof (Hrise 0 t1) as Hlow. pose proof (Hrise t2 d) as Hhigh.
  rewrite Hstart in Hlow. rewrite Hfinish in Hhigh.
  split; [apply Hlow; lra | split; [apply Hrise; lra | apply Hhigh; lra]].
Qed.

Lemma rising_curve_is_monotone_witness :
  3 <= easeInOutCirc 0.5 3 4 2
  /\ easeInOutCirc 0.5 3 4 2 <= easeInOutCirc 1.5 3 4 2
  /\ easeInOutCirc 1.5 3 4 2 <= 3 + 4.
Proof.
  apply (rising_curve_is_monotone "easeInOutCirc" easeInOutCirc).
  - unfold rising_curves. simpl. tauto.
  - lra.
  - lra.
  - lra.
  - lra.
  - lra.
Defined.

(** ** The bounce curves stay between the two ends *)

Lemma scaled_in_range (b c g : R) :
  0 <= c -> 0 <= g <= 1 -> b <= c * g + b <= b + c.
Proof. intros Hc [Hg0 Hg1]. split; nra. Qed.

Lemma easeOutBounce_range (t b c d : R) :
  0 < d -> 0 <= c -> 0 <= t -> t <= d ->
  b <= easeOutBounce t b c d <= b + c.
Proof.
  intros Hd Hc H0 H1. pose proof (unit_ratio t d Hd (conj H0 H1)) as [Hu0 Hu1].
  assert (Hd0 : d <> 0) by lra.
  destruct (Rlt_dec (t / d) (1 / 2.75)) as [Hs1 | Hs1];
    [ | destruct (Rlt_dec (t / d) (2 / 2.75)) as [Hs2 | Hs2];
        [ | destruct (Rlt_dec (t / d) (2.5 / 2.75)) as [Hs3 | Hs3]]].
  - rewrite easeOutBounce_segment1 by assumption.
    apply scaled_in_range; [exact Hc | ]. set (u := t / d) in *. split; nra.
  - rewrite easeOutBounce_segment2 by (assumption || lra).
    apply scaled_in_range; [exact Hc | ]. set (u := t / d) in *. split; nra.
  - rewrite easeOutBounce_segment3 by (assumption || lra).
    apply scaled_in_range; [exact Hc | ]. set (u := t / d) in *. split; nra.
  - rewrite easeOutBounce_segment4 by (assumption || lra).
    apply scaled_in_range; [exact Hc | ]. set (u := t / d) in *. split; nra.
Qed.

Lemma easeInBounce_range (t b c d : R) :
  0 < d -> 0 <= c -> 0 <= t -> t <= d ->
  b <= easeInBounce t b c d <= b + c.
Proof.
  intros Hd Hc H0 H1. unfold easeInBounce.
  pose proof (easeOutBounce_range (d - t) 0 c d Hd Hc) as Hout. lra.
Qed.

Lemma easeInOutBounce_range (t b c d : R) :
  0 < d -> 0 <= c -> 0 <= t -> t <= d ->
  b <= easeInOutBounce t b c d <= b + c.
Proof.
  intros Hd Hc H0 H1. unfold easeInOutBounce.
  destruct (Rlt_dec t (d / 2)) as [Hlt | Hge].
  - rewrite (Rltb_lt _ _ Hlt). unfold easeInOutBounce_first.
    pose proof (easeInBounce_range (t * 2) 0 c d Hd Hc) as Hin. lra.
  - rewrite Rltb_ge by lra. unfold easeInOutBounce_second.
    pose proof (easeOutBounce_range (t * 2 - d) 0 c d Hd Hc) as Hout. lra.
Qed.

(** The bounce curves turn back but never leave the range of the animation:
    for a duration [d > 0], a change [c >= 0] and a time [0 <= t <= d] the
    value lies between the start value [b] and the end value [b + c]. *)
Theorem bounce_curve_stays_in_range :
  forall (name : string) (f : TEasingFunction),
    In (name, f) bounce_curves ->
    forall t b c d : R,
      0 < d -> 0 <= c -> 0 <= t -> t <= d ->
      b <= f t b c d <= b + c.
Proof.
  intros name f Hin t b c d Hd Hc H0 H1. unfold bounce_curves in Hin. simpl in Hin.
  repeat (destruct Hin as [Hin | Hin]; [injection Hin as <- <- | ]);
    try contradiction.
  - apply easeOutBounce_range; assumption.
  - apply easeInBounce_range; assumption.
  - apply easeInOutBounce_range; assumption.
Qed.

Lemma bounce_curve_stays_in_range_witness :
  3 <= easeInOutBounce 0.5 3 4 2 <= 3 + 4.
Proof.
  apply (bounce_curve_stays_in_range "easeInOutBounce" easeInOutBounce).
  - unfold bounce_curves. simpl. tauto.
  - lra.
  - lra.
  - lra.
  - lra.
Defined.

(** [easeOutBounce] has no jump where its segments meet: at each of the
    thresholds [t / d = 1/2.75], [2/2.75], [2.5/2.75] the formula of the
    segment that ends there and the curve itself, which takes the next
    segment, give the same value, [c + b] ([d <> 0]). *)
Theorem easeOutBounce_segments_join (b c d : R) :
  d <> 0 ->
  (c * (7.5625 * (1 / 2.75) * (1 / 2.75)) + b
   = easeOutBounce (1 / 2.75 * d) b c d
   /\ easeOutBounce (1 / 2.75 * d) b c d = c + b)
  /\ (c * (7.5625 * (2 / 2.75 - 1.5 / 2.75) * (2 / 2.75 - 1.5 / 2.75) + 0.75) + b
      = easeOutBounce (2 / 2.75 * d) b c d
      /\ easeOutBounce (2 / 2.75 * d) b c d = c + b)
  /\ (c * (7.5625 * (2.5 / 2.75 - 2.25 / 2.75) * (2.5 / 2.75 - 2.25 / 2.75) + 0.9375)
      + b
      = easeOutBounce (2.5 / 2.75 * d) b c d
      /\ easeOutBounce (2.5 / 2.75 * d) b c d = c + b).
Proof.
  intros Hd.
  destruct (easeOutBounce_thresholds b c d Hd) as (_ & H1 & H2 & H3 & _).
  rewrite H1, H2, H3. repeat split; lra.
Qed.

Lemma easeOutBounce_segments_join_witness :
  (4 * (7.5625 * (1 / 2.75) * (1 / 2.75)) + 3 = easeOutBounce (1 / 2.75 * 2) 3 4 2
   /\ easeOutBounce (1 / 2.75 * 2) 3 4 2 = 4 + 3)
  /\ (4 * (7.5625 * (2 / 2.75 - 1.5 / 2.75) * (2 / 2.75 - 1.5 / 2.75) + 0.75) + 3
      = easeOutBounce (2 / 2.75 * 2) 3 4 2
      /\ easeOutBounce (2 / 2.75 * 2) 3 4 2 = 4 + 3)
  /\ (4 * (7.5625 * (2.5 / 2.75 - 2.25 / 2.75) * (2.5 / 2.75 - 2.25 / 2.75) + 0.9375)
      + 3
      = easeOutBounce (2.5 / 2.75 * 2) 3 4 2
      /\ easeOutBounce (2.5 / 2.75 * 2) 3 4 2 = 4 + 3).
Proof. apply (easeOutBounce_segments_join 3 4 2). lra. Defined.

(** ** The exponential "in" curve leaves the start value with a jump *)

(** [easeInExpo] returns the start value [b] at [t = 0] by its test; at every
    later time of the animation its value is above [b + c / 1024], so the
    values between [b] and [b + c / 1024] are never taken ([d > 0],
    [c > 0]). *)
Theorem easeInExpo_jumps_at_start (t b c d : R) :
  0 < d -> 0 < c -> 0 <= t ->
  (t = 0 /\ easeInExpo t b c d = b)
  \/ (0 < t /\ b + c / 1024 < easeInExpo t b c d).
Proof.
  intros Hd Hc H0. destruct (Req_dec_T t 0) as [Hz | Hz].
  - left. split; [exact Hz | ]. subst t. apply easeInExpo_start.
  - right. split; [lra | ]. unfold easeInExpo. rewrite (Reqb_neq t 0 Hz).
    assert (Hu : 0 < t / d) by (apply Rdiv_lt_0_compat; lra).
    assert (Hpow : Rpower 2 (-10) < Rpower 2 (10 * (t / d - 1)))
      by (apply Rpower_lt; lra).
    rewrite Rpower_2_m10 in Hpow. nra.
Qed.

Lemma easeInExpo_jumps_at_start_witness :
  (1 = 0 /\ easeInExpo 1 3 4 2 = 3) \/ (0 < 1 /\ 3 + 4 / 1024 < easeInExpo 1 3 4 2).
Proof. apply (easeInExpo_jumps_at_start 1 3 4 2); lra. Defined.

(** ** The back curves overshoot *)

(** With an overshoot [s > 0], [easeInBack] first moves away from the end
    value: it is below the start value [b] for [0 < t < d s / (s + 1)], and
    [easeOutBack] is above the end value [b + c] for
    [d / (s + 1) < t < d] ([d > 0], [c > 0]). *)
Theorem back_curves_overshoot (t b c d s : R) :
  0 < d -> 0 < c -> 0 < s ->
  0 < t -> t < d * s / (s + 1) ->
  easeInBack t b c d s < b /\ b + c < easeOutBack (d - t) b c d s.
Proof.
  intros Hd Hc Hs H0 H1.
  assert (Hin : easeInBack t b c d s < b).
  { unfold easeInBack. cbv zeta.
    assert (Hu0 : 0 < t / d) by (apply Rdiv_lt_0_compat; lra).
    assert (Hu1 : (s + 1) * (t / d) < s).
    { apply (Rmult_lt_reg_r (d / (s + 1))).
      - apply Rdiv_lt_0_compat; lra.
      - replace ((s + 1) * (t / d) * (d / (s + 1))) with t by (field; lra).
        replace (s * (d / (s + 1))) with (d * s / (s + 1)) by (field; lra).
        exact H1. }
    set (u := t / d) in *.
    assert (Hsq : 0 < u * u) by nra.
    assert (Hprod : u * u * ((s + 1) * u - s) < 0) by nra.
    assert (Hc' : c * (u * u * ((s + 1) * u - s)) < 0) by nra.
    lra. }
  split; [exact Hin | ].
  pose proof (Back_mirror (d - t) b c d s) as Hmirror.
  replace (d - (d - t)) with t in Hmirror by ring.
  assert (Hd0 : d <> 0) by lra. specialize (Hmirror Hd0). lra.
Qed.

Lemma back_curves_overshoot_witness :
  easeInBack 0.5 3 4 2 default_s < 3 /\ 3 + 4 < easeOutBack (2 - 0.5) 3 4 2 default_s.
Proof.
  apply (back_curves_overshoot 0.5 3 4 2 default_s); unfold default_s; lra.
Defined.

(** ** The elastic curves are cosines under an exponential envelope *)

(** Between the end points the elastic "in" and "out" curves are a cosine
    of period [0.3 d] whose amplitude grows, or decays, by a factor [2 ** 10]
    over the animation; [normalize] contributes the amplitude [c] and a
    quarter period only. *)
Lemma easeInElastic_waveform (t b c d : R) :
  d <> 0 -> t <> 0 -> t <> d ->
  easeInElastic t b c d
  = b + c * Rpower 2 (10 * (t / d - 1)) * cos ((t / d - 1) * (2 * PI) / 0.3).
Proof.
  intros Hd Ht0 Htd. unfold easeInElastic, elastic. cbv zeta.
  assert (Hu1 : t / d <> 1).
  { intros Hu. apply Htd. replace t with (t / d * d) by (field; exact Hd).
    rewrite Hu. ring. }
  rewrite (Reqb_neq t 0 Ht0), (Reqb_neq (t / d) 1 Hu1), Reqb_refl,
    normalize_amplitude_is_change.
  cbn [Ease.a Ease.c Ease.p Ease.s]. rewrite elastic_sin by lra. ring.
Qed.

Lemma easeOutElastic_waveform (t b c d : R) :
  d <> 0 -> t <> 0 -> t <> d ->
  easeOutElastic t b c d
  = b + c - c * Rpower 2 (-10 * (t / d)) * cos (t / d * (2 * PI) / 0.3).
Proof.
  intros Hd Ht0 Htd. unfold easeOutElastic. cbv zeta.
  assert (Hu1 : t / d <> 1).
  { intros Hu. apply Htd. replace t with (t / d * d) by (field; exact Hd).
    rewrite Hu. ring. }
  rewrite (Reqb_neq t 0 Ht0), (Reqb_neq (t / d) 1 Hu1), Reqb_refl,
    normalize_amplitude_is_change.
  cbn [Ease.a Ease.c Ease.p Ease.s]. rewrite elastic_sin by lra. ring.
Qed.

Lemma under_envelope (c P x : R) : 0 <= P -> Rabs (c * P * cos x) <= Rabs c * P.
Proof.
  intros HP. rewrite !Rabs_mult, (Rabs_pos_eq P HP).
  assert (Hcos : Rabs (cos x) <= 1) by (apply Rabs_le, COS_bound).
  pose proof (Rabs_pos c) as Hc.
  assert (HcP : 0 <= Rabs c * P) by (apply Rmult_le_pos; assumption).
  rewrite <- (Rmult_1_r (Rabs c * P)) at 2.
  apply Rmult_le_compat_l; assumption.
Qed.

Lemma Rpower_2_nonneg (x : R) : 0 <= Rpower 2 x.
Proof. unfold Rpower. left. apply exp_pos. Qed.

(** The elastic "in" curve stays within [|c| 2 ** (10 (t/d - 1))] of the
    start value [b], and the elastic "out" curve within
    [|c| 2 ** (-10 t/d)] of the end value [b + c], at every time [t] and for
    every duration [d <> 0]: the oscillation is confined to an exponential
    envelope. *)
Theorem elastic_curves_under_envelope (t b c d : R) :
  d <> 0 ->
  Rabs (easeInElastic t b c d - b) <= Rabs c * Rpower 2 (10 * (t / d - 1))
  /\ Rabs (easeOutElastic t b c d - (b + c)) <= Rabs c * Rpower 2 (-10 * (t / d)).
Proof.
  intros Hd.
  pose proof (Rabs_pos c) as Hc.
  pose proof (Rpower_2_nonneg (10 * (t / d - 1))) as Hin.
  pose proof (Rpower_2_nonneg (-10 * (t / d))) as Hout.
  destruct (Req_dec_T t 0) as [Ht0 | Ht0]; [ | destruct (Req_dec_T t d) as [Htd | Htd]].
  - subst t. rewrite easeInElastic_start, easeOutElastic_start, div_0_l.
    replace (b - b) with 0 by ring. replace (b - (b + c)) with (- c) by ring.
    rewrite Rabs_R0, Rabs_Ropp. replace (-10 * 0) with 0 by ring.
    rewrite Rpower_2_0. split; [ | lra].
    apply Rmult_le_pos; [exact Hc | apply Rpower_2_nonneg].
  - subst t.
    rewrite easeInElastic_finish, easeOutElastic_finish, (div_same d Hd) by exact Hd.
    replace (b + c - b) with c by ring. replace (b + c - (b + c)) with 0 by ring.
    rewrite Rabs_R0. replace (10 * (1 - 1)) with 0 by ring.
    rewrite Rpower_2_0. split; [lra | ].
    apply Rmult_le_pos; [exact Hc | apply Rpower_2_nonneg].
  - rewrite easeInElastic_waveform, easeOutElastic_waveform by assumption. split.
    + replace (b + c * Rpower 2 (10 * (t / d - 1))
                 * cos ((t / d - 1) * (2 * PI) / 0.3) - b)
        with (c * Rpower 2 (10 * (t / d - 1)) * cos ((t / d - 1) * (2 * PI) / 0.3))
        by ring.
      apply under_envelope, Hin.
    + replace (b + c - c * Rpower 2 (-10 * (t / d)) * cos (t / d * (2 * PI) / 0.3)
               - (b + c))
        with (- (c * Rpower 2 (-10 * (t / d)) * cos (t / d * (2 * PI) / 0.3)))
        by ring.
      rewrite Rabs_Ropp. apply under_envelope, Hout.
Qed.

Lemma elastic_curves_under_envelope_witness :
  Rabs (easeInElastic 0.5 3 4 2 - 3) <= Rabs 4 * Rpower 2 (10 * (0.5 / 2 - 1))
  /\ Rabs (easeOutElastic 0.5 3 4 2 - (3 + 4)) <= Rabs 4 * Rpower 2 (-10 * (0.5 / 2)).
Proof. apply (elastic_curves_under_envelope 0.5 3 4 2). lra. Defined.

(** ** What [normalize] guarantees *)

Lemma Rabs_bounds (c a : R) : Rabs c <= a -> - a <= c <= a.
Proof. unfold Rabs. destruct (Rcase_abs c); lra. Qed.

Lemma ratio_in_unit (c a : R) : 0 < a -> - a <= c <= a -> -1 <= c / a <= 1.
Proof.
  intros Ha [Hlo Hhi]. assert (Hinv : 0 < / a) by (apply Rinv_0_lt_compat, Ha).
  assert (Hone : a * / a = 1) by (apply Rinv_r; lra).
  unfold Rdiv. split; nra.
Qed.

Lemma Rabs_quarter (p : R) : Rabs (p / 4) = Rabs p / 4.
Proof.
  unfold Rdiv. rewrite Rabs_mult, (Rabs_pos_eq (/ 4)) by lra. reflexivity.
Qed.

(** Whatever amplitude is requested, [normalize] returns an amplitude that
    is at least the change in absolute value and a phase shift of at most a
    quarter period; and where it calls [asin(c / a)] the amplitude is
    positive and the argument lies in [[-1, 1]], the domain of [asin]. *)
Theorem normalize_guarantees (a c p s : R) :
  Rabs c <= Rabs (Ease.a (normalize a c p s))
  /\ Rabs (Ease.s (normalize a c p s)) <= Rabs p / 4
  /\ (Rabs c <= a -> ~ (a = 0 /\ c = 0) ->
      Ease.s (normalize a c p s) = p / twoMathPi * asin (c / a)
      /\ 0 < a /\ -1 <= c / a <= 1).
Proof.
  assert (Hquarter : p / twoMathPi * asin 1 = p / 4).
  { rewrite asin_1. unfold twoMathPi. field. apply PI_neq0. }
  assert (Hdomain : Rabs c <= a -> ~ (a = 0 /\ c = 0) -> 0 < a /\ -1 <= c / a <= 1).
  { intros Hge Hnz. pose proof (Rabs_bounds c a Hge) as Hb.
    assert (Ha : 0 < a).
    { destruct (Req_dec_T a 0) as [Ha0 | Ha0]; [ | lra].
      exfalso. apply Hnz. split; [exact Ha0 | lra]. }
    split; [exact Ha | apply ratio_in_unit; assumption]. }
  destruct (Rlt_dec a (Rabs c)) as [Hlt | Hge].
  - rewrite (normalize_clamped a c p s Hlt). cbn [Ease.a Ease.s].
    rewrite Rabs_quarter. repeat split; try lra.
  - apply Rnot_lt_le in Hge.
    destruct (Req_dec_T a 0) as [Ha0 | Ha0];
      [destruct (Req_dec_T c 0) as [Hc0 | Hc0] | ].
    + subst a c. rewrite normalize_zero. cbn [Ease.a Ease.s].
      rewrite Hquarter, Rabs_quarter. repeat split; lra.
    + exfalso. subst a. pose proof (Rabs_pos c) as Hpos.
      assert (Hz : Rabs c = 0) by lra. apply Hc0.
      destruct (Rabs_bounds c 0) as [Hlo Hhi]; lra.
    + assert (Hnz : ~ (a = 0 /\ c = 0)) by tauto.
      destruct (Hdomain Hge Hnz) as [Ha Hunit].
      rewrite (normalize_asin a c p s Hge Hnz). cbn [Ease.a Ease.s].
      split; [rewrite (Rabs_pos_eq a) by lra; exact Hge | ].
      split; [ | intros _ _; split; [reflexivity | split; assumption]].
      assert (Htwo : 0 < twoMathPi) by (unfold twoMathPi; pose proof PI_RGT_0; lra).
      assert (Hasin : Rabs (asin (c / a)) <= PI / 2) by (apply Rabs_le, asin_bound).
      unfold Rdiv at 1. rewrite !Rabs_mult, (Rabs_pos_eq (/ twoMathPi))
        by (left; apply Rinv_0_lt_compat, Htwo).
      apply (Rle_trans _ (Rabs p * / twoMathPi * (PI / 2))).
      * apply Rmult_le_compat_l; [ | exact Hasin].
        apply Rmult_le_pos; [apply Rabs_pos | left; apply Rinv_0_lt_compat, Htwo].
      * right. unfold twoMathPi. field. apply PI_neq0.
Qed.

End EaseShapeFacts.

(** * Further properties of the object transforms *)

Module ObjectTransformsMoreFacts.

Import ObjectTransforms ObjectTransformsFacts SizeAfterTransform.

(** ** Matrices *)

Lemma invert_multiply_cancel (m t : TMat2D) :
  det m <> 0 ->
  multiplyTransformMatrices (invertTransform m) (multiplyTransformMatrices m t) = t.
Proof.
  destruct m as [a0 a1 a2 a3 a4 a5], t as [t0 t1 t2 t3 t4 t5].
  unfold multiplyTransformMatrices, invertTransform, det. simpl. intros Hdet.
  f_equal; field; exact Hdet.
Qed.

Lemma multiply_assoc (a b c : TMat2D) :
  multiplyTransformMatrices a (multiplyTransformMatrices b c)
  = multiplyTransformMatrices (multiplyTransformMatrices a b) c.
Proof.
  destruct a, b, c. unfold multiplyTransformMatrices. simpl. f_equal; ring.
Qed.

Lemma multiply_identity_l (t : TMat2D) :
  multiplyTransformMatrices (Mat2D 1 0 0 1 0 0) t = t.
Proof. destruct t. unfold multiplyTransformMatrices. simpl. f_equal; ring. Qed.

Section Contracts.

Context `{External}.

(** ** Adding and removing transforms *)

(** Adding a transform and then removing it restores the own matrix of the
    object, for an invertible matrix [m], given the inverse-pair contract of
    [qrDecompose] and [composeMatrix] and the contracts of the object's
    methods. *)
Theorem add_then_remove_restores_matrix (object : FabricObject) (m : TMat2D) :
  set_assigns -> setPositionByOrigin_repositions ->
  compose_decompose -> calcOwnMatrix_composes ->
  det m <> 0 ->
  calcOwnMatrix (removeTransformFromObject (addTransformToObject object m) m)
  = calcOwnMatrix object.
Proof.
  intros Hset Hpos Hinv Hown Hdet.
  unfold addTransformToObject, removeTransformFromObject. cbv zeta.
  rewrite !calcOwnMatrix_applyTransformToObject by assumption.
  apply invert_multiply_cancel, Hdet.
Qed.

(** Adding two transforms one after the other gives the object the own
    matrix that adding their product gives it, and adding the identity
    leaves the own matrix as it is, under the same contracts. *)
Theorem addTransformToObject_composes (object : FabricObject) (m1 m2 : TMat2D) :
  set_assigns -> setPositionByOrigin_repositions ->
  compose_decompose -> calcOwnMatrix_composes ->
  calcOwnMatrix (addTransformToObject (addTransformToObject object m1) m2)
  = calcOwnMatrix (addTransformToObject object (multiplyTransformMatrices m2 m1))
  /\ calcOwnMatrix (addTransformToObject object (Mat2D 1 0 0 1 0 0))
     = calcOwnMatrix object.
Proof.
  intros Hset Hpos Hinv Hown. unfold addTransformToObject.
  rewrite !calcOwnMatrix_applyTransformToObject by assumption.
  split; [apply multiply_assoc | apply multiply_identity_l].
Qed.

(** ** [applyTransformToObject] discards the previous transform state *)

(** The transform fields and the centre after [applyTransformToObject] are
    those of the matrix alone: two objects to which the same matrix is
    applied agree on [angle], [skewX], [skewY], [scaleX], [scaleY], [flipX],
    [flipY] and on their centre, whatever their state was before.  The
    object's [set] assigns the two scales and its [setPositionByOrigin]
    writes the position only. *)
Theorem applyTransformToObject_discards_state
    (object1 object2 : FabricObject) (transform : TMat2D) :
  set_assigns -> setPositionByOrigin_repositions ->
  let o1 := applyTransformToObject object1 transform in
  let o2 := applyTransformToObject object2 transform in
  angle o1 = angle o2
  /\ skewX o1 = skewX o2 /\ skewY o1 = skewY o2
  /\ scaleX o1 = scaleX o2 /\ scaleY o1 = scaleY o2
  /\ flipX o1 = flipX o2 /\ flipY o1 = flipY o2
  /\ getCenterPoint o1 = getCenterPoint o2.
Proof.
  intros Hset Hpos o1 o2. subst o1 o2.
  destruct (applyTransformToObject_fields object1 transform Hset Hpos)
    as (Hfx1 & Hfy1 & Ha1 & Hkx1 & Hky1 & Hsx1 & Hsy1 & Hc1).
  destruct (applyTransformToObject_fields object2 transform Hset Hpos)
    as (Hfx2 & Hfy2 & Ha2 & Hkx2 & Hky2 & Hsx2 & Hsy2 & Hc2).
  rewrite Hfx1, Hfy1, Ha1, Hkx1, Hky1, Hsx1, Hsy1, Hc1.
  rewrite Hfx2, Hfy2, Ha2, Hkx2, Hky2, Hsx2, Hsy2, Hc2.
  repeat split; reflexivity.
Qed.

End Contracts.

Lemma add_then_remove_restores_matrix_witness :
  @calcOwnMatrix reference
    (@removeTransformFromObject reference
       (@addTransformToObject reference
          (mkObject 3 4 0 0 45 true false 10 20) (Mat2D 2 0 0 2 5 7))
       (Mat2D 2 0 0 2 5 7))
  = @calcOwnMatrix reference (mkObject 3 4 0 0 45 true false 10 20).
Proof.
  apply (@add_then_remove_restores_matrix reference).
  - exact reference_set_assigns.
  - exact reference_setPositionByOrigin_repositions.
  - exact reference_compose_decompose.
  - exact reference_calcOwnMatrix_composes.
  - unfold det. simpl. lra.
Defined.

Lemma addTransformToObject_composes_witness :
  @calcOwnMatrix reference
    (@addTransformToObject reference
       (@addTransformToObject reference
          (mkObject 3 4 0 0 45 true false 10 20) (Mat2D 2 0 0 2 5 7))
       (Mat2D 0 1 (-1) 0 0 0))
  = @calcOwnMatrix reference
      (@addTransformToObject reference (mkObject 3 4 0 0 45 true false 10 20)
         (multiplyTransformMatrices (Mat2D 0 1 (-1) 0 0 0) (Mat2D 2 0 0 2 5 7)))
  /\ @calcOwnMatrix reference
       (@addTransformToObject reference (mkObject 3 4 0 0 45 true false 10 20)
          (Mat2D 1 0 0 1 0 0))
     = @calcOwnMatrix reference (mkObject 3 4 0 0 45 true false 10 20).
Proof.
  apply (@addTransformToObject_composes reference).
  - exact reference_set_assigns.
  - exact reference_setPositionByOrigin_repositions.
  - exact reference_compose_decompose.
  - exact reference_calcOwnMatrix_composes.
Defined.

Lemma applyTransformToObject_discards_state_witness :
  let o1 := @applyTransformToObject reference
              (mkObject 3 4 5 6 45 true true 10 20) (Mat2D 2 0 0 2 5 7) in
  let o2 := @applyTransformToObject reference
              (mkObject 1 1 0 0 0 false false 0 0) (Mat2D 2 0 0 2 5 7) in
  angle o1 = angle o2
  /\ skewX o1 = skewX o2 /\ skewY o1 = skewY o2
  /\ scaleX o1 = scaleX o2 /\ scaleY o1 = scaleY o2
  /\ flipX o1 = flipX o2 /\ flipY o1 = flipY o2
  /\ @getCenterPoint reference o1 = @getCenterPoint reference o2.
Proof.
  apply (@applyTransformToObject_discards_state reference).
  - exact reference_set_assigns.
  - exact reference_setPositionByOrigin_repositions.
Defined.

(** ** [sizeAfterTransform] *)

(** Splits on the comparisons of [Rmax], [Rmin] and [Rabs], innermost
    first. *)
Ltac split_extrema :=
  unfold Rmax, Rmin, Rabs;
  repeat match goal with
         | |- context [Rle_dec ?a ?b] =>
             lazymatch b with
             | context [Rle_dec _ _] => fail
             | _ => destruct (Rle_dec a b)
             end
         | |- context [Rcase_abs ?a] => destruct (Rcase_abs a)
         end.

Lemma Rabs_double (a w : R) : Rabs (a * w) = 2 * Rabs (a * (w / 2)).
Proof.
  replace (a * w) with (2 * (a * (w / 2))) by field.
  rewrite Rabs_mult, (Rabs_pos_eq 2) by lra. reflexivity.
Qed.

(** The extent of the four points [±A ± C], shifted by [e], is
    [2 (|A| + |C|)]. *)
Lemma extent_of_corners (a c e w h : R) :
  fold_right Rmax (a * - w + c * - h + e)
    [a * w + c * - h + e; a * - w + c * h + e; a * w + c * h + e]
  - fold_right Rmin (a * - w + c * - h + e)
      [a * w + c * - h + e; a * - w + c * h + e; a * w + c * h + e]
  = 2 * Rabs (a * w) + 2 * Rabs (c * h).
Proof.
  simpl. set (A := a * w). set (C := c * h).
  replace (a * - w) with (- A) by (unfold A; ring).
  replace (c * - h) with (- C) by (unfold C; ring).
  split_extrema; lra.
Qed.

(** The size [sizeAfterTransform(width, height, options)] returns is, with
    [[a, b, c, d, e, f]] the matrix [calcDimensionsMatrix(options)],
    [(|a width| + |c height|, |b width| + |d height|)]: it does not depend
    on the translation [(e, f)], it is never negative, and it does not
    change when the width or the height is negated. *)
Theorem sizeAfterTransform_closed_form
    (TScaleMatrixArgs : Type) (calcDimensionsMatrix : TScaleMatrixArgs -> TMat2D)
    (width height : R) (options : TScaleMatrixArgs) :
  let m := calcDimensionsMatrix options in
  let size := sizeAfterTransform calcDimensionsMatrix width height options in
  size = mkPoint (Rabs (m0 m * width) + Rabs (m2 m * height))
                 (Rabs (m1 m * width) + Rabs (m3 m * height))
  /\ 0 <= x size /\ 0 <= y size
  /\ sizeAfterTransform calcDimensionsMatrix (- width) height options = size
  /\ sizeAfterTransform calcDimensionsMatrix width (- height) options = size.
Proof.
  intros m size.
  assert (Hform : forall w h : R,
             sizeAfterTransform calcDimensionsMatrix w h options
             = mkPoint (Rabs (m0 m * w) + Rabs (m2 m * h))
                       (Rabs (m1 m * w) + Rabs (m3 m * h))).
  { intros w h. unfold sizeAfterTransform, makeBoundingBoxFromPoints, transformPoint.
    cbv zeta. fold m. cbn [map x y BBox.width BBox.height].
    rewrite !extent_of_corners, <- !Rabs_double. reflexivity. }
  subst size. rewrite !Hform. cbn [x y].
  split; [reflexivity | ].
  split; [apply Rplus_le_le_0_compat; apply Rabs_pos | ].
  split; [apply Rplus_le_le_0_compat; apply Rabs_pos | ].
  split; f_equal; f_equal;
    rewrite <- ?Ropp_mult_distr_r, ?Rabs_Ropp; reflexivity.
Qed.

End ObjectTransformsMoreFacts.
